(** * pyparsing/util.py: memoization caches and character-range compaction

    A shallow embedding of the cache classes ([_UnboundedCache], [_FifoCache],
    [LRUMemo], [UnboundedMemo]), of the two regex-range helpers
    ([_escape_regex_range_chars], [_collapse_string_to_ranges]), of the
    position functions ([col], [lineno], [line]) and of [_flatten] of
    [pyparsing/util.py], followed by the properties proved about them.

    Conventions.
    - A Python object with mutable attributes is a record; a method is a
      function from the object's state to an [outcome] and the state the
      call leaves behind (also when the call raises).
    - A plain [dict] is a [gmap]; a [collections.OrderedDict] is an
      association list, oldest entry first.
    - A one-character [str] is its code point [ord c : N]; a [str] is the
      list of its code points. *)

From stdpp Require Import gmap strings list sorting.
From Stdlib Require Import ZArith NArith Lia.

Local Open Scope Z_scope.
Set Warnings "-clear-no-such-hyp".  (* raised inside naive_solver *)
Set Warnings "-register-all".        (* no nested scheme is asked for *)

(** ** Exceptions and outcomes *)

Inductive exn : Set := KeyError.

Inductive outcome (A : Type) : Type :=
| Return (a : A)
| Raise (e : exn).
Arguments Return {A} a.
Arguments Raise {A} e.

(** A method of an object whose state has type [S]. *)
Definition method (S A : Type) : Type := S → outcome A * S.

(** What [cache.get(key, not_in_cache)] hands back: a stored value, or the
    sentinel object [not_in_cache] created by the constructor. *)
Inductive cached (V : Type) : Type :=
| hit (v : V)
| not_in_cache.
Arguments hit {V} v.
Arguments not_in_cache {V}.

(** ** collections.OrderedDict *)

Module OrderedDict.
Section ordered_dict.
Context {K : Type} `{EqDecision K} {V : Type}.

(** Entries in insertion order, oldest first; keys are pairwise distinct. *)
Definition keys (d : list (K * V)) : list K := d.*1.

(** [d.get(key)] *)
Fixpoint get (key : K) (d : list (K * V)) : option V :=
  match d with
  | [] => None
  | (k, v) :: r => if decide (k = key) then Some v else get key r
  end.

(** [d[key] = value]: an existing key keeps its place, a new one goes last. *)
Fixpoint setitem (key : K) (value : V) (d : list (K * V)) : list (K * V) :=
  match d with
  | [] => [(key, value)]
  | (k, v) :: r =>
      if decide (k = key) then (k, value) :: r
      else (k, v) :: setitem key value r
  end.

(** [d.pop(key, None)], the popped value dropped. *)
Fixpoint pop (key : K) (d : list (K * V)) : list (K * V) :=
  match d with
  | [] => []
  | (k, v) :: r => if decide (k = key) then r else (k, v) :: pop key r
  end.

(** [d.move_to_end(key)] *)
Definition move_to_end (key : K) : method (list (K * V)) unit := λ d,
  match get key d with
  | None => (Raise KeyError, d)
  | Some v => (Return (), pop key d ++ [(key, v)])
  end.

(** [d[key]] *)
Definition getitem (key : K) : method (list (K * V)) V := λ d,
  match get key d with
  | None => (Raise KeyError, d)
  | Some v => (Return v, d)
  end.
End ordered_dict.
End OrderedDict.

(** ** class _UnboundedCache *)

Module _UnboundedCache.
Section unbounded_cache.
Context {K : Type} `{Countable K} {V : Type}.

(** The closure variable [cache]; [self.size] is [None]. *)
Record t : Type := Build { cache : gmap K V }.

Definition __init__ : outcome t := Return {| cache := ∅ |}.

Definition get (key : K) : method t (cached V) := λ self,
  (Return (match cache self !! key with
           | Some v => hit v
           | None => not_in_cache
           end), self).

Definition set_ (key : K) (value : V) : method t unit := λ self,
  (Return (), {| cache := <[key := value]> (cache self) |}).

Definition clear : method t unit := λ self,
  (Return (), {| cache := ∅ |}).
(** The calls a client can make, and the state a call leaves behind. *)
Inductive call : Type :=
| Get (key : K)
| Set_ (key : K) (value : V)
| Clear.

Definition after (c : call) (self : t) : t :=
  match c with
  | Get key => (get key self).2
  | Set_ key value => (set_ key value self).2
  | Clear => (clear self).2
  end.

Definition run (cs : list call) (self : t) : t :=
  foldl (λ s c, after c s) self cs.

(** A call that neither clears the cache nor sets [key]. *)
Definition keeps (key : K) (c : call) : Prop :=
  match c with
  | Get _ => True
  | Set_ k _ => k ≠ key
  | Clear => False
  end.
End unbounded_cache.
Arguments t K {_ _} V.
Arguments call K V : clear implicits.
End _UnboundedCache.

(** ** class _FifoCache *)

Module _FifoCache.
Section fifo_cache.
Context {K : Type} `{EqDecision K} {V : Type}.

Record t : Type := Build { size : Z; cache : list (K * V) }.

Definition __init__ (size : Z) : outcome t :=
  Return {| size := size; cache := [] |}.

Definition get (key : K) : method t (cached V) := λ self,
  (Return (match OrderedDict.get key (cache self) with
           | Some v => hit v
           | None => not_in_cache
           end), self).

(** [while len(cache) > size: cache.popitem(last=False)];
    [popitem] drops the oldest entry and raises [KeyError] on an empty
    dictionary. *)
Fixpoint trim (size : Z) (cache : list (K * V)) : outcome unit * list (K * V) :=
  if decide (Z.of_nat (length cache) > size) then
    match cache with
    | [] => (Raise KeyError, [])
    | _ :: r => trim size r
    end
  else (Return (), cache).

Definition set_ (key : K) (value : V) : method t unit := λ self,
  let (r, c) := trim (size self) (OrderedDict.setitem key value (cache self)) in
  (r, {| size := size self; cache := c |}).

Definition clear : method t unit := λ self,
  (Return (), {| size := size self; cache := [] |}).
(** The calls a client can make, and the state a call leaves behind. *)
Inductive call : Type :=
| Get (key : K)
| Set_ (key : K) (value : V)
| Clear.

Definition after (c : call) (self : t) : t :=
  match c with
  | Get key => (get key self).2
  | Set_ key value => (set_ key value self).2
  | Clear => (clear self).2
  end.

(** The cache is a dictionary (no key twice) of at most [size] entries. *)
Definition within_bound (bound : Z) (self : t) : Prop :=
  size self = bound
  ∧ NoDup (OrderedDict.keys (cache self))
  ∧ (Z.of_nat (length (cache self)) ≤ bound)%Z.

(** States reachable from a fresh [_FifoCache(size)]. *)
Inductive reachable (size : Z) : t → Prop :=
| reachable_init self :
    __init__ size = Return self → reachable size self
| reachable_call c self :
    reachable size self → reachable size (after c self).
End fifo_cache.
Arguments t K V : clear implicits.
Arguments call K V : clear implicits.
End _FifoCache.

(** ** class LRUMemo *)

Module LRUMemo.
Section lru_memo.
Context {K : Type} `{Countable K} {V : Type}.

Record t : Type := Build {
  _capacity : Z;
  _active : gmap K V;
  _memory : list (K * V)
}.

Definition __init__ (capacity : Z) : outcome t :=
  Return {| _capacity := capacity; _active := ∅; _memory := [] |}.

Definition with_memory (self : t) (m : list (K * V)) : t :=
  {| _capacity := _capacity self; _active := _active self; _memory := m |}.

Definition __getitem__ (key : K) : method t V := λ self,
  match _active self !! key with
  | Some v => (Return v, self)
  | None =>
      (* except KeyError: *)
      match OrderedDict.move_to_end key (_memory self) with
      | (Raise e, m) => (Raise e, with_memory self m)
      | (Return _, m) =>
          let (r, m') := OrderedDict.getitem key m in
          (r, with_memory self m')
      end
  end.

Definition __setitem__ (key : K) (value : V) : method t unit := λ self,
  (Return (),
   {| _capacity := _capacity self;
      _active := <[key := value]> (_active self);
      _memory := OrderedDict.pop key (_memory self) |}).

(** [while len(self._memory) >= self._capacity:
       self._memory.popitem(last=False)];
    [popitem] drops the oldest entry and raises [KeyError] on an empty
    dictionary. *)
Fixpoint evict (capacity : Z) (memory : list (K * V))
  : outcome unit * list (K * V) :=
  if decide (Z.of_nat (length memory) >= capacity) then
    match memory with
    | [] => (Raise KeyError, [])
    | _ :: r => evict capacity r
    end
  else (Return (), memory).

Definition __delitem__ (key : K) : method t unit := λ self,
  match _active self !! key with
  | None => (Return (), self)       (* except KeyError: pass *)
  | Some value =>
      let active' := delete key (_active self) in
      match evict (_capacity self) (_memory self) with
      | (Raise e, m) =>
          (Raise e,
           {| _capacity := _capacity self; _active := active'; _memory := m |})
      | (Return _, m) =>
          (Return (),
           {| _capacity := _capacity self; _active := active';
              _memory := OrderedDict.setitem key value m |})
      end
  end.

Definition clear : method t unit := λ self,
  (Return (),
   {| _capacity := _capacity self; _active := ∅; _memory := [] |}).

(** The calls a client can make, and the state a call leaves behind. *)
Inductive call : Type :=
| Getitem (key : K)
| Setitem (key : K) (value : V)
| Delitem (key : K)
| Clear.

Definition after (c : call) (self : t) : t :=
  match c with
  | Getitem key => (__getitem__ key self).2
  | Setitem key value => (__setitem__ key value self).2
  | Delitem key => (__delitem__ key self).2
  | Clear => (clear self).2
  end.

Definition run (cs : list call) (self : t) : t :=
  foldl (λ s c, after c s) self cs.

(** No key is in [_active] and in [_memory] at once. *)
Definition disjoint (self : t) : Prop :=
  ∀ key, ¬ (is_Some (_active self !! key)
            ∧ key ∈ OrderedDict.keys (_memory self)).

(** [_memory] is a dictionary (no key twice) that shares no key with
    [_active]. *)
Definition well_formed (self : t) : Prop :=
  NoDup (OrderedDict.keys (_memory self)) ∧ disjoint self.

(** States reachable from a fresh [LRUMemo(capacity)]. *)
Inductive reachable (capacity : Z) : t → Prop :=
| reachable_init self :
    __init__ capacity = Return self → reachable capacity self
| reachable_call c self :
    reachable capacity self → reachable capacity (after c self).
(** At most [capacity] entries are retained. *)
Definition within_capacity (capacity : Z) (self : t) : Prop :=
  _capacity self = capacity
  ∧ (Z.of_nat (length (_memory self)) ≤ capacity)%Z.

(** A call that does not set, release or clear [key]. *)
Definition spares (key : K) (c : call) : Prop :=
  match c with
  | Getitem _ => True
  | Setitem k _ => k ≠ key
  | Delitem k => k ≠ key
  | Clear => False
  end.
End lru_memo.
Arguments t K {_ _} V.
Arguments call K V : clear implicits.
End LRUMemo.

(** ** class UnboundedMemo(dict) *)

Module UnboundedMemo.
Section unbounded_memo.
Context {K : Type} `{Countable K} {V : Type}.

(** Inherited from [dict]. *)
Definition __getitem__ (key : K) : method (gmap K V) V := λ self,
  match self !! key with
  | Some v => (Return v, self)
  | None => (Raise KeyError, self)
  end.

Definition __setitem__ (key : K) (value : V) : method (gmap K V) unit :=
  λ self, (Return (), <[key := value]> self).

(** The override: [def __delitem__(self, key): pass] *)
Definition __delitem__ (key : K) : method (gmap K V) unit := λ self,
  (Return (), self).
End unbounded_memo.
End UnboundedMemo.

(** ** Strings as lists of code points *)

Local Open Scope N_scope.

(** The code points of an ASCII literal. *)
Definition py (s : string) : list N :=
  Ascii.N_of_ascii <$> String.list_ascii_of_string s.

Definition _bslash : N := 92.

(** ** str.find, str.rfind, str.count and slices

    The needle is one character; positions are Python integers. *)

(** CPython's [ADJUST_INDICES]: an [end] beyond the length is the length, a
    negative index counts from the end and stops at zero; [start] is not cut
    down to the length. *)
Definition adjust_indices (start end_ len : Z) : Z * Z :=
  let end_ :=
    if decide (end_ > len)%Z then len
    else if decide (end_ < 0)%Z then Z.max (end_ + len) 0 else end_ in
  let start := if decide (start < 0)%Z then Z.max (start + len) 0 else start in
  (start, end_).

(** The characters at the adjusted positions [start], ..., [end_ - 1]. *)
Definition between (s : list N) (start end_ : Z) : list N :=
  take (Z.to_nat (end_ - start)) (drop (Z.to_nat start) s).

(** The first and the last position of [c] in [l]. *)
Fixpoint find_char (c : N) (l : list N) : option nat :=
  match l with
  | [] => None
  | x :: r => if decide (x = c) then Some O else S <$> find_char c r
  end.

Fixpoint rfind_char (c : N) (l : list N) : option nat :=
  match l with
  | [] => None
  | x :: r =>
      match rfind_char c r with
      | Some i => Some (S i)
      | None => if decide (x = c) then Some O else None
      end
  end.

(** [s.find(c, start)] *)
Definition str_find (c : N) (s : list N) (start : Z) : Z :=
  let len := Z.of_nat (length s) in
  let (start, end_) := adjust_indices start len len in
  if decide (end_ - start < 1)%Z then (-1)%Z
  else
    match find_char c (between s start end_) with
    | Some i => (start + Z.of_nat i)%Z
    | None => (-1)%Z
    end.

(** [s.rfind(c, start, end)] *)
Definition str_rfind (c : N) (s : list N) (start end_ : Z) : Z :=
  let len := Z.of_nat (length s) in
  let (start, end_) := adjust_indices start end_ len in
  if decide (end_ - start < 1)%Z then (-1)%Z
  else
    match rfind_char c (between s start end_) with
    | Some i => (start + Z.of_nat i)%Z
    | None => (-1)%Z
    end.

(** [s.count(c, start, end)] *)
Definition str_count (c : N) (s : list N) (start end_ : Z) : Z :=
  let len := Z.of_nat (length s) in
  let (start, end_) := adjust_indices start end_ len in
  if decide (end_ - start < 1)%Z then 0%Z
  else Z.of_nat (length (filter (λ x, x = c) (between s start end_))).

(** A slice bound: a negative index counts from the end and stops at zero,
    an index beyond the length is the length. *)
Definition slice_index (i len : Z) : Z :=
  if decide (i < 0)%Z then Z.max (i + len) 0 else Z.min i len.

(** [s[start:stop]] and [s[start:]] *)
Definition slice (s : list N) (start stop : Z) : list N :=
  let len := Z.of_nat (length s) in
  between s (slice_index start len) (slice_index stop len).

Definition slice_from (s : list N) (start : Z) : list N :=
  let len := Z.of_nat (length s) in
  between s (slice_index start len) len.

(** ** col, lineno, line

    The [lru_cache] decorator memoizes these pure functions and does not
    change what they return. *)

Definition newline : N := 10.

Definition col (loc : Z) (strg : list N) : Z :=
  let s := strg in
  if decide ((0 < loc < Z.of_nat (length s))%Z
             ∧ s !! Z.to_nat (loc - 1) = Some newline)
  then 1%Z
  else (loc - str_rfind newline s 0 loc)%Z.

Definition lineno (loc : Z) (strg : list N) : Z :=
  (str_count newline strg 0 loc + 1)%Z.

Definition line (loc : Z) (strg : list N) : list N :=
  let last_cr := str_rfind newline strg 0 loc in
  let next_cr := str_find newline strg loc in
  if decide (next_cr >= 0)%Z then slice strg (last_cr + 1) next_cr
  else slice_from strg (last_cr + 1).

(** Position [loc] falls in the line [cur] of [strg]: [pre] is the lines
    before it, each with its newline, [post] what follows it from its newline
    on, and [loc] lies between the start of [cur] and its end (the position
    of the newline that ends it, or the end of the string). *)
Definition line_at (strg : list N) (loc : Z) (pre cur post : list N) : Prop :=
  strg = pre ++ cur ++ post
  ∧ (pre = [] ∨ ∃ p, pre = p ++ [newline])
  ∧ (newline ∉ cur)
  ∧ (post = [] ∨ ∃ p, post = newline :: p)
  ∧ (Z.of_nat (length pre) ≤ loc ≤ Z.of_nat (length pre + length cur))%Z.


(** [s.replace(old, new)] for a one-character [old]. *)
Definition replace (old : N) (new : list N) (s : list N) : list N :=
  s ≫= λ c, if decide (c = old) then new else [c].

Definition _escape_regex_range_chars (s : list N) : list N :=
  let s := foldl (λ s c, replace c [_bslash; c] s) s (py "\^-[]") in
  let s := replace 10 (py "\n") s in
  let s := replace 9 (py "\t") s in
  s.

(** [sorted(set(s))] *)
Definition sorted_set (s : list N) : list N :=
  merge_sort N.le (elements (list_to_set s : gset N)).

(** ** _collapse_string_to_ranges *)

Module is_consecutive.
(** The function attributes [prev], [counter] (the next value of
    [itertools.count()]) and [value]. *)
Record attrs : Set := Build { prev : Z; counter : Z; value : Z }.

Definition init : attrs := {| prev := 0; counter := 0; value := -1 |}.

Definition call (c : N) (st : attrs) : Z * attrs :=
  let c_int := Z.of_N c in
  if decide (c_int - prev st > 1)%Z then
    (counter st,
     {| prev := c_int; counter := counter st + 1; value := counter st |})
  else
    (value st,
     {| prev := c_int; counter := counter st; value := value st |}).
End is_consecutive.

(** The keys [itertools.groupby] computes, one call of [is_consecutive] per
    element, in order. *)
Fixpoint keyed (s : list N) (st : is_consecutive.attrs) : list (Z * N) :=
  match s with
  | [] => []
  | c :: r =>
      let (k, st') := is_consecutive.call c st in
      (k, c) :: keyed r st'
  end.

(** [itertools.groupby]: maximal blocks of adjacent elements with equal keys. *)
Fixpoint groupby (kcs : list (Z * N)) : list (Z * list N) :=
  match kcs with
  | [] => []
  | (k, c) :: r =>
      match groupby r with
      | (k', chars) :: gs =>
          if decide (k = k') then (k, c :: chars) :: gs
          else (k, [c]) :: (k', chars) :: gs
      | [] => [(k, [c])]
      end
  end.

Definition escape_re_range_char (c : N) : list N :=
  if decide (c ∈ py "\^-][") then _bslash :: [c] else [c].

Definition no_escape_re_range_char (c : N) : list N := [c].

(** [first = last = next(chars)] and
    [last = collections.deque(itertools.chain(iter([last]), chars), maxlen=1).pop()]:
    the first and the last member of a group. *)
Definition first_and_last (chars : list N) : option (N * N) :=
  match chars with
  | [] => None                     (* [groupby] yields no empty group *)
  | first :: rest => Some (first, List.last rest first)
  end.

(** The rest of the loop body: what is appended to [ret]. *)
Definition piece (esc : N → list N) (fl : N * N) : list N :=
  let (first, last) := fl in
  if decide (first = last) then esc first
  else
    let sep := if decide (last = first + 1) then [] else py "-" in
    esc first ++ sep ++ esc last.

Definition group_piece (esc : N → list N) (chars : list N) : list N :=
  from_option (piece esc) [] (first_and_last chars).

Definition _collapse_string_to_ranges (s : list N) (re_escape : bool) : list N :=
  let esc :=
    if re_escape then escape_re_range_char else no_escape_re_range_char in
  let s := sorted_set s in
  let ret :=
    if decide (3 < length s)%nat then   (* len(s) > 3 *)
      (λ g, group_piece esc g.2) <$> groupby (keyed s is_consecutive.init)
    else esc <$> s in
  concat ret.

(** ** Runs, in the words of the specification

    A run is a maximal sequence of consecutive code points of the sorted
    character set, each member's code point being the previous member's
    plus one.  [spec_runs] lists the runs of a sorted sequence by their
    first and last members. *)

Fixpoint spec_runs (l : list N) : list (N * N) :=
  match l with
  | [] => []
  | c :: r =>
      match spec_runs r with
      | (a, b) :: rs =>
          if decide (a = c + 1) then (c, b) :: rs else (c, c) :: (a, b) :: rs
      | [] => [(c, c)]
      end
  end.

(** What the specification has emitted: the runs when the set has more than
    three members, every member on its own otherwise. *)
Definition spec_segments (l : list N) : list (N * N) :=
  if decide (3 < length l)%nat then spec_runs l else (λ c, (c, c)) <$> l.

(** [x] lies in one of the intervals [rs]. *)
Definition covers (rs : list (N * N)) (x : N) : Prop :=
  ∃ r, r ∈ rs ∧ r.1 ≤ x ≤ r.2.

(** ** The syntax of a regular-expression character class

    The text between [[] and []] is read left to right.  A backslash takes
    the next character with it; every other character stands alone. *)

Inductive token : Set :=
| Esc (c : N)      (* backslash followed by [c] *)
| Raw (c : N).     (* [c] on its own *)

Fixpoint lex (s : list N) : option (list token) :=
  match s with
  | [] => Some []
  | c :: r =>
      if decide (c = _bslash) then
        match r with
        | [] => None                          (* dangling backslash *)
        | e :: r' => cons (Esc e) <$> lex r'
        end
      else cons (Raw c) <$> lex r
  end.

Definition is_ascii_alnum (c : N) : bool :=
  bool_decide (48 ≤ c ≤ 57) || bool_decide (65 ≤ c ≤ 90)
  || bool_decide (97 ≤ c ≤ 122).

(** The character one token denotes.  [\n] and [\t] are newline and tab, a
    backslash before a character that is neither a letter nor a digit
    denotes that character; the other letter and digit escapes (classes,
    numeric escapes) are outside this model.  An unescaped []] would close
    the class. *)
Definition atom (t : token) : option N :=
  match t with
  | Esc e =>
      if decide (e = 110) then Some 10
      else if decide (e = 116) then Some 9
      else if is_ascii_alnum e then None
      else Some e
  | Raw c => if decide (c = 93) then None else Some c
  end.

Inductive item : Set :=
| Single (c : N)
| Range (first last : N).

(** An atom, an unescaped hyphen and another atom make a range; a range
    whose last member is below its first is an error. *)
Fixpoint items (ts : list token) : option (list item) :=
  match ts with
  | [] => Some []
  | t :: r =>
      a ← atom t;
      match r with
      | Raw d :: u :: r' =>
          if decide (d = 45) then
            b ← atom u;
            if decide (b < a) then None else cons (Range a b) <$> items r'
          else cons (Single a) <$> items r
      | _ => cons (Single a) <$> items r
      end
  end.

(** The class with body [body]; a leading unescaped [^] would negate it and
    is refused. *)
Definition char_class (body : list N) : option (list item) :=
  match body with
  | c :: _ => if decide (c = 94) then None else lex body ≫= items
  | [] => Some []
  end.

Definition item_matches (c : N) (i : item) : bool :=
  match i with
  | Single x => bool_decide (c = x)
  | Range first last => bool_decide (first ≤ c ≤ last)
  end.

Definition class_matches (cls : list item) (c : N) : bool :=
  existsb (item_matches c) cls.

(** ** The escaped output in the words of the specification *)

(** A member of the set is written with a backslash before it when it is one
    of the five characters, and on its own otherwise. *)
Definition spec_token (c : N) : token :=
  if decide (c ∈ py "\^-[]") then Esc c else Raw c.

(** A run of one member is that member; a run of two is both members, no
    separator; a longer run is its first member, a hyphen, its last member. *)
Definition spec_run_tokens (r : N * N) : list token :=
  let (a, b) := r in
  if decide (a = b) then [spec_token a]
  else if decide (b = a + 1) then [spec_token a; spec_token b]
  else [spec_token a; Raw 45; spec_token b].

Definition spec_run_items (r : N * N) : list item :=
  let (a, b) := r in
  if decide (a = b) then [Single a]
  else if decide (b = a + 1) then [Single a; Single b]
  else [Range a b].

(** The escaping pre-pass, character by character: a backslash before each
    of the five characters, the two-character sequences for newline and
    tab. *)
Definition spec_escape_char (c : N) : list N :=
  if decide (c ∈ py "\^-[]") then [_bslash; c]
  else if decide (c = 10) then py "\n"
  else if decide (c = 9) then py "\t"
  else [c].

(** What the escaping pre-pass writes for one character, as a token. *)
Definition spec_escape_token (c : N) : token :=
  if decide (c ∈ py "\^-[]") then Esc c
  else if decide (c = 10) then Esc 110
  else if decide (c = 9) then Esc 116
  else Raw c.

(** The character a token is written with, its backslash left out. *)
Definition token_char (t : token) : N :=
  match t with
  | Esc c => c
  | Raw c => c
  end.

(** The [n] consecutive code points from [a] on. *)
Fixpoint block (a : N) (n : nat) : list N :=
  match n with
  | O => []
  | S n => a :: block (a + 1) n
  end.

(** ** _flatten *)

(** A Python value as [_flatten] tells them apart: a [list] of values, or
    anything else. *)
Inductive pyobj (A : Type) : Type :=
| Other (a : A)
| PyList (l : list (pyobj A)).
Arguments Other {A} a.
Arguments PyList {A} l.

(** One turn of the loop of [_flatten]: what item [i] adds to [ret], the
    flattening of [i] when it is a list, [i] itself otherwise. *)
Fixpoint flatten_item {A} (i : pyobj A) : list (pyobj A) :=
  match i with
  | PyList l =>
      (fix _flatten (ll : list (pyobj A)) : list (pyobj A) :=
         match ll with
         | [] => []
         | i :: r => flatten_item i ++ _flatten r
         end) l
  | Other _ => [i]
  end.

Definition _flatten {A} (ll : list (pyobj A)) : list (pyobj A) :=
  flatten_item (PyList ll).

Definition is_list {A} (i : pyobj A) : Prop :=
  match i with
  | PyList _ => True
  | Other _ => False
  end.

(** * Properties *)

(** ** OrderedDict *)

Section ordered_dict_facts.
Context {K : Type} `{EqDecision K} {V : Type}.
Implicit Types (d : list (K * V)) (k key : K) (v : V).

Lemma od_get_None key d :
  OrderedDict.get key d = None ↔ key ∉ OrderedDict.keys d.
Proof.
  unfold OrderedDict.keys.
  induction d as [|[k v] d IH]; simpl.
  - split; [intros _; apply not_elem_of_nil | done].
  - rewrite not_elem_of_cons. case_decide as Hk.
    + split; [done | intros [? _]; done].
    + rewrite IH. naive_solver.
Qed.

Lemma od_get_Some_keys key v d :
  OrderedDict.get key d = Some v → key ∈ OrderedDict.keys d.
Proof.
  intros Hg. destruct (decide (key ∈ OrderedDict.keys d)) as [|Hn]; [done|].
  apply od_get_None in Hn. congruence.
Qed.

Lemma od_get_app key d1 d2 :
  OrderedDict.get key (d1 ++ d2) =
  match OrderedDict.get key d1 with
  | Some v => Some v
  | None => OrderedDict.get key d2
  end.
Proof.
  induction d1 as [|[k v] d1 IH]; simpl; [done|]. by case_decide.
Qed.

Lemma od_get_setitem_eq key v d :
  OrderedDict.get key (OrderedDict.setitem key v d) = Some v.
Proof.
  induction d as [|[k w] d IH]; simpl.
  - by rewrite decide_True.
  - case_decide; simpl; [by rewrite decide_True | by rewrite decide_False].
Qed.

Lemma od_get_setitem_ne key k v d :
  key ≠ k →
  OrderedDict.get k (OrderedDict.setitem key v d) = OrderedDict.get k d.
Proof.
  intros Hne. induction d as [|[k' w] d IH]; simpl.
  - by rewrite decide_False.
  - case_decide; subst; simpl.
    + by rewrite !decide_False.
    + by rewrite IH.
Qed.

Lemma od_setitem_new key v d :
  key ∉ OrderedDict.keys d → OrderedDict.setitem key v d = d ++ [(key, v)].
Proof.
  unfold OrderedDict.keys.
  induction d as [|[k w] d IH]; simpl; [done|].
  rewrite not_elem_of_cons. intros [Hne Hd].
  rewrite decide_False by done. by rewrite IH.
Qed.

Lemma od_keys_setitem key v d k :
  k ∈ OrderedDict.keys (OrderedDict.setitem key v d) ↔
  k = key ∨ k ∈ OrderedDict.keys d.
Proof.
  unfold OrderedDict.keys.
  induction d as [|[k' w] d IH]; simpl.
  - rewrite list_elem_of_singleton. set_solver.
  - case_decide; subst; simpl; rewrite !elem_of_cons; [naive_solver|].
    rewrite IH. naive_solver.
Qed.

Lemma od_NoDup_setitem key v d :
  NoDup (OrderedDict.keys d) →
  NoDup (OrderedDict.keys (OrderedDict.setitem key v d)).
Proof.
  unfold OrderedDict.keys.
  induction d as [|[k w] d IH]; simpl.
  - intros _. apply NoDup_singleton.
  - rewrite NoDup_cons. intros [Hk Hd].
    case_decide; subst; simpl; rewrite NoDup_cons; [done|].
    split; [|by apply IH].
    intros Hin. apply od_keys_setitem in Hin. naive_solver.
Qed.

Lemma od_keys_pop key d k :
  k ∈ OrderedDict.keys (OrderedDict.pop key d) → k ∈ OrderedDict.keys d.
Proof.
  unfold OrderedDict.keys.
  induction d as [|[k' w] d IH]; simpl; [done|].
  case_decide; simpl; rewrite !elem_of_cons; naive_solver.
Qed.

Lemma od_NoDup_pop key d :
  NoDup (OrderedDict.keys d) →
  NoDup (OrderedDict.keys (OrderedDict.pop key d)).
Proof.
  unfold OrderedDict.keys.
  induction d as [|[k w] d IH]; simpl; [done|].
  rewrite NoDup_cons. intros [Hk Hd].
  case_decide; simpl; [done|].
  rewrite NoDup_cons. split; [|by apply IH].
  intros Hin. by apply od_keys_pop in Hin.
Qed.

Lemma od_pop_absent key d :
  NoDup (OrderedDict.keys d) →
  key ∉ OrderedDict.keys (OrderedDict.pop key d).
Proof.
  unfold OrderedDict.keys.
  induction d as [|[k w] d IH]; simpl; [intros _; apply not_elem_of_nil|].
  rewrite NoDup_cons. intros [Hk Hd].
  case_decide; subst; simpl; [done|].
  rewrite not_elem_of_cons. split; [done | by apply IH].
Qed.

Lemma od_get_pop_ne key k d :
  key ≠ k → OrderedDict.get k (OrderedDict.pop key d) = OrderedDict.get k d.
Proof.
  intros Hne. induction d as [|[k' w] d IH]; simpl; [done|].
  case_decide; subst; simpl.
  - by rewrite decide_False.
  - by rewrite IH.
Qed.

Lemma od_pop_not_in key d :
  key ∉ OrderedDict.keys d → OrderedDict.pop key d = d.
Proof.
  unfold OrderedDict.keys.
  induction d as [|[k w] d IH]; simpl; [done|].
  rewrite not_elem_of_cons. intros [Hne Hd].
  rewrite decide_False by done. by rewrite IH.
Qed.

Lemma od_keys_pop_perm key v d :
  OrderedDict.get key d = Some v →
  OrderedDict.keys d ≡ₚ key :: OrderedDict.keys (OrderedDict.pop key d).
Proof.
  unfold OrderedDict.keys.
  induction d as [|[k w] d IH]; simpl; [done|].
  case_decide; subst; simpl; [done|].
  intros Hg. rewrite (IH Hg). apply Permutation_swap.
Qed.

Lemma od_keys_move_to_end key v d :
  OrderedDict.get key d = Some v →
  OrderedDict.keys (OrderedDict.pop key d ++ [(key, v)]) ≡ₚ OrderedDict.keys d.
Proof.
  intros Hg. unfold OrderedDict.keys. rewrite fmap_app. simpl.
  rewrite <-Permutation_cons_append.
  symmetry. by apply (od_keys_pop_perm key v).
Qed.

Lemma od_pop_length key v d :
  OrderedDict.get key d = Some v →
  length d = S (length (OrderedDict.pop key d)).
Proof.
  induction d as [|[k w] d IH]; simpl; [done|].
  case_decide; simpl; [done|]. intros Hg. by rewrite (IH Hg).
Qed.
End ordered_dict_facts.

(** ** LRUMemo: the loop of [__delitem__] *)

Section lru_facts.
Local Arguments OrderedDict.keys : simpl never.
Context {K : Type} `{Countable K} {V : Type}.
Implicit Types (self : LRUMemo.t K V) (m : list (K * V)) (key k : K) (v : V).

Lemma evict_cons capacity kv m :
  LRUMemo.evict capacity (kv :: m) =
  if decide (Z.of_nat (length (kv :: m)) >= capacity)%Z
  then LRUMemo.evict capacity m else (Return (), kv :: m).
Proof. reflexivity. Qed.

Lemma evict_nil capacity :
  LRUMemo.evict (K:=K) (V:=V) capacity [] =
  if decide (0 >= capacity)%Z then (Raise KeyError, []) else (Return (), []).
Proof. reflexivity. Qed.

Lemma evict_room capacity m :
  (Z.of_nat (length m) < capacity)%Z →
  LRUMemo.evict capacity m = (Return (), m).
Proof.
  intros Hlt. destruct m as [|kv m].
  - rewrite evict_nil. simpl in Hlt. case_decide; [lia | done].
  - rewrite evict_cons. case_decide; [lia | done].
Qed.

Lemma evict_full capacity kv m :
  Z.of_nat (length (kv :: m)) = capacity →
  LRUMemo.evict capacity (kv :: m) = (Return (), m).
Proof.
  intros Hlen. rewrite evict_cons, decide_True by lia.
  apply evict_room. simpl in Hlen. lia.
Qed.

Lemma evict_suffix capacity m : (LRUMemo.evict capacity m).2 `suffix_of` m.
Proof.
  induction m as [|kv m IH].
  - rewrite evict_nil. by case_decide.
  - rewrite evict_cons. case_decide; [|done]. by apply suffix_cons_r.
Qed.

Lemma evict_raise capacity m e m' :
  LRUMemo.evict capacity m = (Raise e, m') → m' = [] ∧ (capacity ≤ 0)%Z.
Proof.
  induction m as [|kv m IH].
  - rewrite evict_nil. case_decide; [|done]. intros [= _ <-]. split; [done | lia].
  - rewrite evict_cons. case_decide; [done | done].
Qed.

Lemma suffix_keys m' m k :
  m' `suffix_of` m → k ∈ OrderedDict.keys m' → k ∈ OrderedDict.keys m.
Proof.
  intros [pre ->]. unfold OrderedDict.keys. rewrite fmap_app, elem_of_app. auto.
Qed.

Lemma suffix_keys_NoDup m' m :
  m' `suffix_of` m → NoDup (OrderedDict.keys m) → NoDup (OrderedDict.keys m').
Proof.
  intros [pre ->]. unfold OrderedDict.keys. rewrite fmap_app, NoDup_app. tauto.
Qed.

(** ** LRUMemo: the two tiers stay disjoint *)

Lemma lru_init_well_formed capacity self :
  LRUMemo.__init__ capacity = Return self → LRUMemo.well_formed self.
Proof.
  intros [= <-]. split; simpl.
  - apply NoDup_nil_2.
  - intros key [_ Hin]. simpl in Hin. by apply not_elem_of_nil in Hin.
Qed.

Lemma lru_getitem_active key v self :
  LRUMemo._active self !! key = Some v →
  LRUMemo.__getitem__ key self = (Return v, self).
Proof. intros Ha. unfold LRUMemo.__getitem__. by rewrite Ha. Qed.

Lemma lru_getitem_absent key self :
  LRUMemo._active self !! key = None →
  key ∉ OrderedDict.keys (LRUMemo._memory self) →
  LRUMemo.__getitem__ key self = (Raise KeyError, self).
Proof.
  intros Ha Hm%od_get_None. unfold LRUMemo.__getitem__, OrderedDict.move_to_end.
  rewrite Ha, Hm. by destruct self.
Qed.

Lemma lru_getitem_retired key v self :
  NoDup (OrderedDict.keys (LRUMemo._memory self)) →
  LRUMemo._active self !! key = None →
  OrderedDict.get key (LRUMemo._memory self) = Some v →
  LRUMemo.__getitem__ key self =
  (Return v,
   LRUMemo.with_memory self
     (OrderedDict.pop key (LRUMemo._memory self) ++ [(key, v)])).
Proof.
  intros Hnd Ha Hm.
  unfold LRUMemo.__getitem__, OrderedDict.move_to_end, OrderedDict.getitem.
  rewrite Ha, Hm, od_get_app.
  apply (od_pop_absent key), od_get_None in Hnd. rewrite Hnd. simpl.
  by rewrite decide_True.
Qed.

Lemma lru_getitem_well_formed key self :
  LRUMemo.well_formed self →
  LRUMemo.well_formed (LRUMemo.__getitem__ key self).2.
Proof.
  intros [Hnd Hdis].
  destruct (LRUMemo._active self !! key) as [v|] eqn:Ha.
  { by rewrite (lru_getitem_active key v). }
  destruct (OrderedDict.get key (LRUMemo._memory self)) as [v|] eqn:Hm.
  - rewrite (lru_getitem_retired key v) by done.
    assert (Hperm := od_keys_move_to_end key v _ Hm).
    split; simpl; [by rewrite Hperm|].
    intros k [Hk Hin]; simpl in *. rewrite Hperm in Hin. by apply (Hdis k).
  - apply od_get_None in Hm. by rewrite lru_getitem_absent.
Qed.

Lemma lru_setitem_well_formed key v self :
  LRUMemo.well_formed self →
  LRUMemo.well_formed (LRUMemo.__setitem__ key v self).2.
Proof.
  intros [Hnd Hdis]. split; simpl.
  - by apply od_NoDup_pop.
  - intros k [Hk Hin]; simpl in *.
    destruct (decide (key = k)) as [->|Hne].
    + by apply (od_pop_absent k (LRUMemo._memory self)).
    + rewrite lookup_insert_ne in Hk by done.
      apply od_keys_pop in Hin. by apply (Hdis k).
Qed.

Lemma lru_delitem_well_formed key self :
  LRUMemo.well_formed self →
  LRUMemo.well_formed (LRUMemo.__delitem__ key self).2.
Proof.
  intros [Hnd Hdis]. unfold LRUMemo.__delitem__.
  destruct (LRUMemo._active self !! key) as [v|] eqn:Ha; [|done].
  assert (Hsuf := evict_suffix (LRUMemo._capacity self) (LRUMemo._memory self)).
  destruct (LRUMemo.evict _ _) as [[[]|e] m']; simpl in *.
  - split; simpl.
    + apply od_NoDup_setitem. by eapply suffix_keys_NoDup.
    + intros k [Hk Hin]; simpl in *.
      apply od_keys_setitem in Hin as [->|Hin].
      * rewrite lookup_delete_eq in Hk. by destruct Hk.
      * destruct (decide (key = k)) as [->|Hne].
        { rewrite lookup_delete_eq in Hk. by destruct Hk. }
        rewrite lookup_delete_ne in Hk by done.
        apply (Hdis k). split; [done|]. by eapply suffix_keys.
  - split; simpl.
    + by eapply suffix_keys_NoDup.
    + intros k [Hk Hin]; simpl in *.
      destruct (decide (key = k)) as [->|Hne].
      { rewrite lookup_delete_eq in Hk. by destruct Hk. }
      rewrite lookup_delete_ne in Hk by done.
      apply (Hdis k). split; [done|]. by eapply suffix_keys.
Qed.

Lemma lru_clear_well_formed self : LRUMemo.well_formed (LRUMemo.clear self).2.
Proof.
  split; simpl.
  - apply NoDup_nil_2.
  - intros key [_ Hin]. simpl in Hin. by apply not_elem_of_nil in Hin.
Qed.

Lemma lru_after_well_formed c self :
  LRUMemo.well_formed self → LRUMemo.well_formed (LRUMemo.after c self).
Proof.
  destruct c; simpl.
  - apply lru_getitem_well_formed.
  - apply lru_setitem_well_formed.
  - apply lru_delitem_well_formed.
  - intros _. apply lru_clear_well_formed.
Qed.

Lemma lru_reachable_well_formed capacity self :
  LRUMemo.reachable capacity self → LRUMemo.well_formed self.
Proof.
  induction 1 as [self Hinit | c self _ IH].
  - by eapply lru_init_well_formed.
  - by apply lru_after_well_formed.
Qed.

(** C6.  In every state reachable from a fresh [LRUMemo] by [__getitem__],
    [__setitem__], [__delitem__] and [clear] calls (also calls that raise),
    no key is in [_active] and in [_memory] at once, and the state any
    further call leaves behind has the same property. *)
Theorem lru_tiers_disjoint capacity self :
  LRUMemo.reachable capacity self →
  LRUMemo.disjoint self ∧ ∀ c, LRUMemo.disjoint (LRUMemo.after c self).
Proof.
  intros Hr. split.
  - by apply (lru_reachable_well_formed capacity).
  - intros c. apply (lru_reachable_well_formed capacity).
    by apply LRUMemo.reachable_call.
Qed.
End lru_facts.

(** ** LRUMemo: single calls *)

Section lru_calls.
Local Arguments OrderedDict.keys : simpl never.
Context {K : Type} `{Countable K} {V : Type}.
Implicit Types (self : LRUMemo.t K V) (m : list (K * V)) (key k : K) (v : V).

Lemma lru_delitem_inactive key self :
  LRUMemo._active self !! key = None →
  LRUMemo.__delitem__ key self = (Return (), self).
Proof. intros Ha. unfold LRUMemo.__delitem__. by rewrite Ha. Qed.

Lemma lru_delitem_room key v self :
  LRUMemo._active self !! key = Some v →
  (Z.of_nat (length (LRUMemo._memory self)) < LRUMemo._capacity self)%Z →
  LRUMemo.__delitem__ key self =
  (Return (),
   {| LRUMemo._capacity := LRUMemo._capacity self;
      LRUMemo._active := delete key (LRUMemo._active self);
      LRUMemo._memory := OrderedDict.setitem key v (LRUMemo._memory self) |}).
Proof.
  intros Ha Hlen. unfold LRUMemo.__delitem__. by rewrite Ha, evict_room.
Qed.

Lemma lru_delitem_full key v self kv m :
  LRUMemo._active self !! key = Some v →
  LRUMemo._memory self = kv :: m →
  Z.of_nat (length (kv :: m)) = LRUMemo._capacity self →
  LRUMemo.__delitem__ key self =
  (Return (),
   {| LRUMemo._capacity := LRUMemo._capacity self;
      LRUMemo._active := delete key (LRUMemo._active self);
      LRUMemo._memory := OrderedDict.setitem key v m |}).
Proof.
  intros Ha Hm Hlen. unfold LRUMemo.__delitem__.
  by rewrite Ha, Hm, evict_full.
Qed.

(** With a capacity of zero or less the loop of [__delitem__] never stops
    popping: releasing an active key empties [_memory] and raises. *)
Lemma lru_delitem_nonpositive_capacity key v self :
  (LRUMemo._capacity self ≤ 0)%Z →
  LRUMemo._active self !! key = Some v →
  LRUMemo.__delitem__ key self =
  (Raise KeyError,
   {| LRUMemo._capacity := LRUMemo._capacity self;
      LRUMemo._active := delete key (LRUMemo._active self);
      LRUMemo._memory := [] |}).
Proof.
  intros Hcap Ha. unfold LRUMemo.__delitem__. rewrite Ha.
  assert (LRUMemo.evict (LRUMemo._capacity self) (LRUMemo._memory self)
          = (Raise KeyError, [])) as ->; [|done].
  induction (LRUMemo._memory self) as [|kv m IH].
  - rewrite evict_nil. by rewrite decide_True by lia.
  - rewrite evict_cons. by rewrite decide_True by lia.
Qed.
End lru_calls.

(** ** _FifoCache: the loop of [set] *)

Section fifo_facts.
Local Arguments OrderedDict.keys : simpl never.
Context {K : Type} `{EqDecision K} {V : Type}.
Implicit Types (self : _FifoCache.t K V) (c : list (K * V)) (key k : K) (v : V).

Lemma trim_cons size kv c :
  _FifoCache.trim size (kv :: c) =
  if decide (Z.of_nat (length (kv :: c)) > size)%Z
  then _FifoCache.trim size c else (Return (), kv :: c).
Proof. reflexivity. Qed.

Lemma trim_nil size :
  _FifoCache.trim (K:=K) (V:=V) size [] =
  if decide (0 > size)%Z then (Raise KeyError, []) else (Return (), []).
Proof. reflexivity. Qed.

Lemma trim_room size c :
  (Z.of_nat (length c) ≤ size)%Z → _FifoCache.trim size c = (Return (), c).
Proof.
  intros Hle. destruct c as [|kv c].
  - rewrite trim_nil. simpl in Hle. case_decide; [lia | done].
  - rewrite trim_cons. case_decide; [lia | done].
Qed.

Lemma trim_one_over size kv c :
  Z.of_nat (length c) = size → _FifoCache.trim size (kv :: c) = (Return (), c).
Proof.
  intros Hlen. rewrite trim_cons, decide_True by (simpl; lia).
  apply trim_room. lia.
Qed.

(** With a negative size the loop of [set] never stops popping. *)
Lemma trim_negative size c :
  (size < 0)%Z → _FifoCache.trim size c = (Raise KeyError, []).
Proof.
  intros Hneg. induction c as [|kv c IH].
  - rewrite trim_nil. by rewrite decide_True by lia.
  - rewrite trim_cons. by rewrite decide_True by lia.
Qed.

Lemma fifo_set_room key v self :
  (Z.of_nat (length (OrderedDict.setitem key v (_FifoCache.cache self)))
   ≤ _FifoCache.size self)%Z →
  _FifoCache.set_ key v self =
  (Return (),
   {| _FifoCache.size := _FifoCache.size self;
      _FifoCache.cache := OrderedDict.setitem key v (_FifoCache.cache self) |}).
Proof. intros Hle. unfold _FifoCache.set_. by rewrite trim_room. Qed.

(** A new key set on a full cache pushes out the entry inserted first. *)
Lemma fifo_set_full key v self :
  Z.of_nat (length (_FifoCache.cache self)) = _FifoCache.size self →
  (1 ≤ _FifoCache.size self)%Z →
  key ∉ OrderedDict.keys (_FifoCache.cache self) →
  _FifoCache.set_ key v self =
  (Return (),
   {| _FifoCache.size := _FifoCache.size self;
      _FifoCache.cache := tail (_FifoCache.cache self) ++ [(key, v)] |}).
Proof.
  intros Hlen Hpos Hnew. unfold _FifoCache.set_.
  rewrite od_setitem_new by done.
  destruct (_FifoCache.cache self) as [|kv c]; simpl in Hlen; [lia|].
  change ((kv :: c) ++ [(key, v)]) with (kv :: (c ++ [(key, v)])).
  rewrite trim_one_over; [done|]. rewrite length_app. simpl. lia.
Qed.
End fifo_facts.

Section cache_claims.
Local Arguments OrderedDict.keys : simpl never.
Context {K : Type} `{Countable K} {V : Type}.

(** C1 (as amended).  Neither bounded constructor validates its bound: for
    every integer [n], zero and negative ones included, [_FifoCache(n)] and
    [LRUMemo(n)] return an empty cache that stores [n] as it was given. *)
Theorem bounded_init_accepts_any_bound (n : Z) :
  _FifoCache.__init__ (K:=K) (V:=V) n
  = Return {| _FifoCache.size := n; _FifoCache.cache := [] |}
  ∧ LRUMemo.__init__ (K:=K) (V:=V) n
    = Return {| LRUMemo._capacity := n; LRUMemo._active := ∅;
                LRUMemo._memory := [] |}.
Proof. split; reflexivity. Qed.

(** C3 (as amended).  On a key that is absent, [get] of [_UnboundedCache] and
    of [_FifoCache] returns the sentinel [not_in_cache] and leaves the cache
    as it was; [LRUMemo.__getitem__] raises [KeyError] (the state unchanged),
    as a mapping does. *)
Theorem get_of_absent_key (key : K)
    (u : _UnboundedCache.t K V) (f : _FifoCache.t K V) (m : LRUMemo.t K V) :
  _UnboundedCache.cache u !! key = None →
  key ∉ OrderedDict.keys (_FifoCache.cache f) →
  LRUMemo._active m !! key = None →
  key ∉ OrderedDict.keys (LRUMemo._memory m) →
  _UnboundedCache.get key u = (Return not_in_cache, u)
  ∧ _FifoCache.get key f = (Return not_in_cache, f)
  ∧ LRUMemo.__getitem__ key m = (Raise KeyError, m).
Proof.
  intros Hu Hf%od_get_None Ha Hm. repeat split.
  - unfold _UnboundedCache.get. by rewrite Hu.
  - unfold _FifoCache.get. by rewrite Hf.
  - by apply lru_getitem_absent.
Qed.

Import LRUMemo.

Ltac od_eval :=
  cbn [OrderedDict.get OrderedDict.setitem OrderedDict.pop app
       _active _memory _capacity with_memory fst snd length tail];
  repeat (first [rewrite decide_True by done | rewrite decide_False by done];
          cbn [OrderedDict.get OrderedDict.setitem OrderedDict.pop app
               _active _memory _capacity with_memory fst snd length tail]).

(** C4 (as amended).  On a fresh [LRUMemo(2)], setting [a] and [b] and
    deleting both leaves both in [_memory] and none active; setting and
    deleting [c] then discards [a], the entry retired first: the lookup of
    [a] raises [KeyError] (it does not return a not-found value), the
    lookups of [b] and [c] return their values. *)
Theorem lru_capacity_two_scenario (a b c : K) (va vb vc : V) (fresh : LRUMemo.t K V) :
  a ≠ b → a ≠ c → b ≠ c →
  LRUMemo.__init__ 2 = Return fresh →
  let s4 := run [Setitem a va; Setitem b vb; Delitem a; Delitem b] fresh in
  let s6 := run [Setitem c vc; Delitem c] s4 in
  (_active s4 = ∅ ∧ _memory s4 = [(a, va); (b, vb)])
  ∧ _memory s6 = [(b, vb); (c, vc)]
  ∧ (__getitem__ a s6).1 = Raise KeyError
  ∧ (__getitem__ b s6).1 = Return vb
  ∧ (__getitem__ c s6).1 = Return vc.
Proof.
  intros Hab Hac Hbc [= <-].
  assert (H4 : run [Setitem a va; Setitem b vb; Delitem a; Delitem b]
                 {| _capacity := 2; _active := ∅; _memory := [] |}
               = {| _capacity := 2; _active := ∅;
                    _memory := [(a, va); (b, vb)] |}).
  { unfold run. cbn [foldl after]. unfold __setitem__ at 1 2. od_eval.
    rewrite (lru_delitem_room a va); [|simpl; by simplify_map_eq|simpl; lia].
    od_eval.
    rewrite (lru_delitem_room b vb); [|simpl; by simplify_map_eq|simpl; lia].
    od_eval. f_equal.
    apply map_eq. intros k.
    destruct (decide (k = a)), (decide (k = b)); by simplify_map_eq. }
  intros s4 s6. subst s6 s4. rewrite H4.
  assert (H6 : run [Setitem c vc; Delitem c]
                 {| _capacity := 2; _active := ∅;
                    _memory := [(a, va); (b, vb)] |}
               = {| _capacity := 2; _active := ∅;
                    _memory := [(b, vb); (c, vc)] |}).
  { unfold run. cbn [foldl after]. unfold __setitem__ at 1. od_eval.
    rewrite (lru_delitem_full c vc _ (a, va) [(b, vb)]);
      [|simpl; by simplify_map_eq|done|done].
    od_eval. f_equal. apply map_eq. intros k.
    destruct (decide (k = c)); by simplify_map_eq. }
  rewrite H6. repeat split.
  - rewrite lru_getitem_absent; [done|done|]. simpl.
    unfold OrderedDict.keys. simpl. set_solver.
  - rewrite (lru_getitem_retired b vb); [done| |done|by od_eval].
    unfold OrderedDict.keys. simpl. apply NoDup_cons. split; [set_solver|].
    apply NoDup_singleton.
  - rewrite (lru_getitem_retired c vc); [done| |done|by od_eval].
    unfold OrderedDict.keys. simpl. apply NoDup_cons. split; [set_solver|].
    apply NoDup_singleton.
Qed.

(** C5.  Reading a retired key returns its value, moves it to the most
    recent end of [_memory] and leaves it retired.  When [_memory] is full
    and holds at least one other entry, the eviction triggered by the next
    release of an active key [key'] then discards the oldest of the other
    entries and keeps [key]; without the read, the same release would have
    discarded the head of [_memory]. *)
Theorem lru_read_promotes_retired_key (key : K) (v : V) (self : LRUMemo.t K V) :
  well_formed self →
  _active self !! key = None →
  OrderedDict.get key (_memory self) = Some v →
  let others := OrderedDict.pop key (_memory self) in
  let s1 := (__getitem__ key self).2 in
  (__getitem__ key self).1 = Return v
  ∧ _active s1 = _active self
  ∧ _memory s1 = others ++ [(key, v)]
  ∧ ∀ key' v',
      (2 ≤ length (_memory self))%nat →
      Z.of_nat (length (_memory self)) = _capacity self →
      _active self !! key' = Some v' →
      _memory (__delitem__ key' s1).2 = tail others ++ [(key, v); (key', v')]
      ∧ _memory (__delitem__ key' self).2
        = tail (_memory self) ++ [(key', v')].
Proof.
  intros [Hnd Hdis] Ha Hm others s1.
  assert (Hlen := od_pop_length key v _ Hm). fold others in Hlen.
  subst s1. rewrite (lru_getitem_retired key v) by done. fold others.
  split_and!; [done|done|done|].
  intros key' v' Hlen2 Hfull Ha'.
  assert (Hk' : key' ∉ OrderedDict.keys (_memory self)).
  { intros Hin. apply (Hdis key'). by rewrite Ha'. }
  assert (Hne : key' ≠ key) by (intros ->; congruence).
  split.
  - destruct others as [|kv rest] eqn:Ho; [simpl in Hlen; lia|].
    rewrite (lru_delitem_full key' v' _ kv (rest ++ [(key, v)]));
      [|done|done|].
    + cbn [snd _memory tail]. rewrite od_setitem_new.
      * by rewrite <-app_assoc.
      * unfold OrderedDict.keys. rewrite fmap_app, elem_of_app.
        intros [Hin|Hin].
        -- apply Hk', (od_keys_pop key). fold others. rewrite Ho.
           unfold OrderedDict.keys. rewrite fmap_cons. by right.
        -- simpl in Hin. by apply list_elem_of_singleton in Hin.
    + cbn [snd _capacity with_memory]. rewrite <-Hfull, Hlen.
      simpl. rewrite length_app. simpl. lia.
  - destruct (_memory self) as [|kv rest] eqn:Hmem; [simpl in Hlen2; lia|].
    rewrite (lru_delitem_full key' v' _ kv rest); [|done|done|done].
    cbn [snd _memory tail]. rewrite od_setitem_new; [done|].
    intros Hin. apply Hk'. unfold OrderedDict.keys in *.
    rewrite fmap_cons. by right.
Qed.
End cache_claims.

Section memo_claims.
Context {K : Type} `{Countable K} {V : Type}.

(** C10.  [UnboundedMemo.__delitem__] returns normally and leaves the
    mapping as it is, whether the key is present or not: every lookup gives
    what it gave before, and a key that was just set is still found with the
    value set. *)
Theorem unbounded_memo_delitem_keeps_mapping (key : K) (self : gmap K V) :
  UnboundedMemo.__delitem__ key self = (Return (), self)
  ∧ (∀ k, (UnboundedMemo.__delitem__ key self).2 !! k = self !! k)
  ∧ (∀ k, UnboundedMemo.__getitem__ k (UnboundedMemo.__delitem__ key self).2
          = UnboundedMemo.__getitem__ k self)
  ∧ (∀ v, (UnboundedMemo.__getitem__ key
             (UnboundedMemo.__delitem__ key
                (UnboundedMemo.__setitem__ key v self).2).2).1 = Return v).
Proof.
  split_and!; try done.
  intros v. unfold UnboundedMemo.__getitem__. simpl.
  by rewrite lookup_insert_eq.
Qed.
End memo_claims.

Section fifo_claims.
Local Arguments OrderedDict.keys : simpl never.
Context {K : Type} `{EqDecision K} {V : Type}.
Import _FifoCache.

(** C7.  On a fresh [_FifoCache(2)], after [set(a)], [set(b)], [set(c)] with
    distinct keys, [a] (inserted first) is gone and [b], [c] are found.
    [get] returns the cache unchanged, so a [set] after any [get] evicts
    what it would have evicted without it; and on a full cache a new key
    pushes out the head of the insertion order. *)
Theorem fifo_size_two_scenario (a b c : K) (va vb vc : V) (fresh : _FifoCache.t K V) :
  a ≠ b → a ≠ c → b ≠ c →
  _FifoCache.__init__ 2 = Return fresh →
  let s1 := (set_ a va fresh).2 in
  let s2 := (set_ b vb s1).2 in
  let s3 := (set_ c vc s2).2 in
  (cache s3 = [(b, vb); (c, vc)]
   ∧ get a s3 = (Return not_in_cache, s3)
   ∧ get b s3 = (Return (hit vb), s3)
   ∧ get c s3 = (Return (hit vc), s3))
  ∧ (∀ key (self : _FifoCache.t K V),
       (get key self).2 = self
       ∧ ∀ key' v, set_ key' v (get key self).2 = set_ key' v self)
  ∧ (∀ key v (self : _FifoCache.t K V),
       Z.of_nat (length (cache self)) = size self →
       (1 ≤ size self)%Z →
       key ∉ OrderedDict.keys (cache self) →
       cache (set_ key v self).2 = tail (cache self) ++ [(key, v)]).
Proof.
  intros Hab Hac Hbc [= <-] s1 s2 s3.
  assert (Hs3 : s3 = {| size := 2; cache := [(b, vb); (c, vc)] |}).
  { subst s3 s2 s1.
    rewrite (fifo_set_room a va) by (simpl; lia).
    cbn [snd size cache OrderedDict.setitem].
    rewrite (fifo_set_room b vb)
      by (cbn [snd size cache OrderedDict.setitem];
          rewrite decide_False by done; simpl; lia).
    cbn [snd size cache OrderedDict.setitem]. rewrite decide_False by done.
    rewrite (fifo_set_full c vc); [done | done | simpl; lia |].
    cbn [cache]. unfold OrderedDict.keys. simpl. set_solver. }
  rewrite Hs3. unfold get. cbn [cache OrderedDict.get].
  repeat first [rewrite decide_False by done | rewrite decide_True by done].
  split_and!; try done.
  intros key v self Hlen Hpos Hnew. by rewrite fifo_set_full.
Qed.
End fifo_claims.

(** ** The scenarios on string keys *)

Section concrete.
Local Arguments OrderedDict.keys : simpl never.
Import LRUMemo.

(** C1, refuted: [_FifoCache(0)] and [LRUMemo(0)] are constructed without an
    error. *)
Lemma bounded_init_zero_is_not_rejected :
  ¬ (∃ e, _FifoCache.__init__ (K:=string) (V:=Z) 0 = Raise e)
  ∧ ¬ (∃ e, LRUMemo.__init__ (K:=string) (V:=Z) 0 = Raise e).
Proof. split; intros [e He]; discriminate He. Qed.

(** C3, refuted: on a fresh [LRUMemo(2)] the lookup of a key that was never
    set raises [KeyError]. *)
Lemma lru_getitem_miss_raises :
  __getitem__ "a"
    {| _capacity := 2; _active := (∅ : gmap string Z); _memory := [] |}
  = (Raise KeyError,
     {| _capacity := 2; _active := ∅; _memory := [] |}).
Proof. reflexivity. Qed.

Lemma get_of_absent_key_witness :
  _UnboundedCache.get "a" {| _UnboundedCache.cache := {[ "b" := 2%Z ]} |}
  = (Return not_in_cache, {| _UnboundedCache.cache := {[ "b" := 2%Z ]} |})
  ∧ _FifoCache.get "a"
      {| _FifoCache.size := 2; _FifoCache.cache := [("b", 2%Z)] |}
    = (Return not_in_cache,
       {| _FifoCache.size := 2; _FifoCache.cache := [("b", 2%Z)] |})
  ∧ __getitem__ "a"
      {| _capacity := 2; _active := {[ "b" := 2%Z ]}; _memory := [("c", 3%Z)] |}
    = (Raise KeyError,
       {| _capacity := 2; _active := {[ "b" := 2%Z ]};
          _memory := [("c", 3%Z)] |}).
Proof.
  apply (get_of_absent_key "a"); simpl.
  - reflexivity.
  - unfold OrderedDict.keys. simpl. set_solver.
  - reflexivity.
  - unfold OrderedDict.keys. simpl. set_solver.
Defined.

Lemma lru_capacity_two_scenario_witness :
  let fresh :=
    {| _capacity := 2; _active := (∅ : gmap string Z); _memory := [] |} in
  let s4 :=
    run [Setitem "a" 1%Z; Setitem "b" 2%Z; Delitem "a"; Delitem "b"] fresh in
  let s6 := run [Setitem "c" 3%Z; Delitem "c"] s4 in
  (_active s4 = ∅ ∧ _memory s4 = [("a", 1%Z); ("b", 2%Z)])
  ∧ _memory s6 = [("b", 2%Z); ("c", 3%Z)]
  ∧ (__getitem__ "a" s6).1 = Raise KeyError
  ∧ (__getitem__ "b" s6).1 = Return 2%Z
  ∧ (__getitem__ "c" s6).1 = Return 3%Z.
Proof.
  apply (lru_capacity_two_scenario "a" "b" "c" 1%Z 2%Z 3%Z);
    [discriminate | discriminate | discriminate | reflexivity].
Defined.

(** C4, refuted as stated: after the six calls the lookup of the evicted key
    does not return normally, it raises [KeyError] and changes nothing. *)
Lemma lru_capacity_two_evicted_lookup_raises :
  let fresh :=
    {| _capacity := 2; _active := (∅ : gmap string Z); _memory := [] |} in
  let s6 :=
    run [Setitem "a" 1%Z; Setitem "b" 2%Z; Delitem "a"; Delitem "b";
         Setitem "c" 3%Z; Delitem "c"] fresh in
  __getitem__ "a" s6 = (Raise KeyError, s6)
  ∧ ∀ v, (__getitem__ "a" s6).1 ≠ Return v.
Proof. split; [by vm_compute | intros v; by vm_compute]. Qed.

Lemma fifo_size_two_scenario_witness :
  let fresh := {| _FifoCache.size := 2; _FifoCache.cache := [] |} in
  let s3 :=
    (_FifoCache.set_ "c" 3%Z
       (_FifoCache.set_ "b" 2%Z (_FifoCache.set_ "a" 1%Z fresh).2).2).2 in
  _FifoCache.get "a" s3 = (Return not_in_cache, s3)
  ∧ _FifoCache.get "b" s3 = (Return (hit 2%Z), s3)
  ∧ _FifoCache.get "c" s3 = (Return (hit 3%Z), s3).
Proof.
  intros fresh s3.
  apply (fifo_size_two_scenario "a" "b" "c" 1%Z 2%Z 3%Z fresh);
    [discriminate | discriminate | discriminate | reflexivity].
Defined.

Lemma lru_tiers_disjoint_witness :
  let self :=
    after (Delitem "a")
      (after (Setitem "a" 1%Z)
         {| _capacity := 2; _active := (∅ : gmap string Z); _memory := [] |}) in
  disjoint self ∧ ∀ c, disjoint (after c self).
Proof.
  apply (lru_tiers_disjoint 2).
  do 2 apply reachable_call. apply reachable_init. reflexivity.
Defined.

Lemma lru_read_promotes_retired_key_witness :
  let self :=
    {| _capacity := 2; _active := {[ "c" := 3%Z ]};
       _memory := [("a", 1%Z); ("b", 2%Z)] |} in
  let s1 := (__getitem__ "a" self).2 in
  (__getitem__ "a" self).1 = Return 1%Z
  ∧ _memory s1 = [("b", 2%Z); ("a", 1%Z)]
  ∧ _memory (__delitem__ "c" s1).2 = [("a", 1%Z); ("c", 3%Z)]
  ∧ _memory (__delitem__ "c" self).2 = [("b", 2%Z); ("c", 3%Z)].
Proof.
  intros self s1.
  assert (Hwf : well_formed self).
  { split; cbn [_memory _active].
    - unfold OrderedDict.keys. simpl.
      apply NoDup_cons. split; [set_solver | apply NoDup_singleton].
    - intros key [[v Hv] Hin]. subst self. cbn [_memory _active] in *.
      unfold OrderedDict.keys in Hin. simpl in Hin.
      apply lookup_singleton_Some in Hv as [<- _]. set_solver. }
  destruct (lru_read_promotes_retired_key "a" 1%Z self Hwf eq_refl eq_refl)
    as (Hret & _ & Hmem & Hnext).
  destruct (Hnext "c" 3%Z) as [Hspared Hplain];
    [simpl; lia | reflexivity | reflexivity |].
  exact (conj Hret (conj Hmem (conj Hspared Hplain))).
Defined.
End concrete.

(** ** sorted(set(s)) *)

Section sorted_set_facts.
Implicit Types (s l : list N) (c : N).

Lemma sorted_set_elem c s : c ∈ sorted_set s ↔ c ∈ s.
Proof.
  unfold sorted_set.
  by rewrite merge_sort_Permutation, elem_of_elements, elem_of_list_to_set.
Qed.

Lemma sorted_set_NoDup s : NoDup (sorted_set s).
Proof.
  unfold sorted_set. rewrite merge_sort_Permutation. apply NoDup_elements.
Qed.

Lemma le_NoDup_ascending l :
  StronglySorted N.le l → NoDup l → StronglySorted N.lt l.
Proof.
  induction 1 as [|c l Hl IH Hc]; intros Hnd; constructor.
  - apply IH. by apply NoDup_cons in Hnd as [_ ?].
  - apply NoDup_cons in Hnd as [Hnot _].
    rewrite Forall_forall in Hc |- *. intros x Hx.
    assert (c ≠ x) by (by intros ->).
    specialize (Hc x Hx). lia.
Qed.

Lemma ascending_NoDup l : StronglySorted N.lt l → NoDup l.
Proof.
  induction 1 as [|c l Hl IH Hc]; constructor; [|done].
  intros Hin. rewrite Forall_forall in Hc.
  apply Hc in Hin. lia.
Qed.

Lemma sorted_set_ascending s : StronglySorted N.lt (sorted_set s).
Proof.
  apply le_NoDup_ascending; [|apply sorted_set_NoDup].
  unfold sorted_set. apply StronglySorted_merge_sort; apply _.
Qed.

(** The ascending list of the members of a set is unique. *)
Lemma ascending_unique l1 l2 :
  StronglySorted N.lt l1 → StronglySorted N.lt l2 →
  (∀ c, c ∈ l1 ↔ c ∈ l2) → l1 = l2.
Proof.
  intros H1 H2 Hmem.
  apply (StronglySorted_unique_strong N.lt); [intros; lia|done|done|].
  apply NoDup_Permutation; auto using ascending_NoDup.
Qed.

Lemma sorted_set_unique s l :
  StronglySorted N.lt l → (∀ c, c ∈ l ↔ c ∈ s) → sorted_set s = l.
Proof.
  intros Hl Hmem. apply ascending_unique; [apply sorted_set_ascending|done|].
  intros c. by rewrite sorted_set_elem, Hmem.
Qed.
End sorted_set_facts.

(** ** groupby on the keys of is_consecutive *)

Section groupby_facts.
Implicit Types (s l : list N) (c : N) (st : is_consecutive.attrs).
Import is_consecutive.

Lemma last_cons_default {A} (x d : A) (l : list A) :
  List.last (x :: l) d = List.last l x.
Proof.
  revert x d. induction l as [|y l IH]; intros x d; [done|].
  change (List.last (x :: y :: l) d) with (List.last (y :: l) d).
  by rewrite !IH.
Qed.

Lemma keyed_cons c l st :
  keyed (c :: l) st = ((call c st).1, c) :: keyed l (call c st).2.
Proof. simpl. by destruct (call c st). Qed.

Lemma groupby_cons k c kcs :
  groupby ((k, c) :: kcs) =
  match groupby kcs with
  | (k', chars) :: gs =>
      if decide (k = k') then (k, c :: chars) :: gs
      else (k, [c]) :: (k', chars) :: gs
  | [] => [(k, [c])]
  end.
Proof. reflexivity. Qed.

Lemma groupby_head k c kcs :
  ∃ chars gs, groupby ((k, c) :: kcs) = (k, c :: chars) :: gs.
Proof.
  rewrite groupby_cons. destruct (groupby kcs) as [|[k' chars] gs]; [eauto|].
  case_decide; eauto.
Qed.

(** Every call returns the [value] it leaves behind, below [counter]; the
    key repeats the previous one exactly when the gap is at most one. *)
Lemma call_spec c st :
  (value st < counter st)%Z →
  (call c st).1 = value (call c st).2
  ∧ (value (call c st).2 < counter (call c st).2)%Z
  ∧ prev (call c st).2 = Z.of_N c
  ∧ ((call c st).1 = value st ↔ ¬ (Z.of_N c - prev st > 1)%Z).
Proof.
  intros Hlt. unfold call. case_decide; simpl; split_and!; try done; try lia.
Qed.

Lemma groupby_keyed_runs l st :
  (value st < counter st)%Z → Sorted N.lt l →
  (λ g, first_and_last g.2) <$> groupby (keyed l st) = Some <$> spec_runs l.
Proof.
  revert st. induction l as [|c [|c' l] IH]; intros st Hst Hl;
    [done | by rewrite keyed_cons |].
  destruct (call_spec c st Hst) as (Hk & Hst1 & Hprev & _).
  destruct (call_spec c' _ Hst1) as (_ & _ & _ & Hk').
  apply Sorted_inv in Hl as [Hl Hhd]. apply HdRel_inv in Hhd.
  specialize (IH _ Hst1 Hl).
  rewrite keyed_cons, groupby_cons.
  rewrite keyed_cons in IH |- *.
  destruct (groupby_head (call c' (call c st).2).1 c'
              (keyed l (call c' (call c st).2).2)) as (chars & gs & Hg).
  rewrite Hg in IH |- *.
  change (spec_runs (c :: c' :: l)) with
    (match spec_runs (c' :: l) with
     | (a, b) :: rs =>
         if decide (a = c + 1) then (c, b) :: rs else (c, c) :: (a, b) :: rs
     | [] => [(c, c)]
     end).
  destruct (spec_runs (c' :: l)) as [|[a b] rs]; [done|].
  rewrite !fmap_cons in IH. cbn [snd first_and_last] in IH.
  injection IH as Ha Hb Hrs. subst a.
  rewrite Hprev, <-Hk in Hk'.
  destruct (decide (c' = c + 1)) as [->|Hgap].
  - rewrite decide_True by (symmetry; apply Hk'; lia).
    rewrite !fmap_cons. cbn [snd first_and_last].
    by rewrite last_cons_default, Hb, Hrs.
  - rewrite decide_False by (intros Heq; symmetry in Heq; apply Hk' in Heq; lia).
    rewrite !fmap_cons. cbn [snd first_and_last List.last].
    by rewrite Hb, Hrs.
Qed.

Lemma init_value_below_counter : (value init < counter init)%Z.
Proof. simpl. lia. Qed.

(** The pieces appended to [ret] are the pieces of the runs. *)
Lemma group_pieces_runs esc l :
  StronglySorted N.lt l →
  (λ g, group_piece esc g.2) <$> groupby (keyed l init)
  = piece esc <$> spec_runs l.
Proof.
  intros Hl%StronglySorted_Sorted.
  assert (Hg := groupby_keyed_runs l init init_value_below_counter Hl).
  apply (f_equal (fmap (from_option (piece esc) []))) in Hg.
  rewrite <-!list_fmap_compose in Hg. exact Hg.
Qed.

Lemma collapse_by_segments s re_escape :
  _collapse_string_to_ranges s re_escape =
  concat (piece (if re_escape then escape_re_range_char
                 else no_escape_re_range_char)
            <$> spec_segments (sorted_set s)).
Proof.
  unfold _collapse_string_to_ranges, spec_segments.
  case_decide.
  - by rewrite group_pieces_runs by apply sorted_set_ascending.
  - rewrite <-list_fmap_compose. f_equal. apply list_fmap_ext.
    intros _ c _. simpl. by rewrite decide_True.
Qed.
End groupby_facts.

(** ** Runs of an ascending list *)

Section runs_facts.
Implicit Types (l : list N) (c x : N) (r : N * N) (rs : list (N * N)).

Lemma spec_runs_cons c l :
  spec_runs (c :: l) =
  match spec_runs l with
  | (a, b) :: rs =>
      if decide (a = c + 1) then (c, b) :: rs else (c, c) :: (a, b) :: rs
  | [] => [(c, c)]
  end.
Proof. reflexivity. Qed.

Lemma spec_runs_head c l : ∃ b rs, spec_runs (c :: l) = (c, b) :: rs.
Proof.
  rewrite spec_runs_cons. destruct (spec_runs l) as [|[a b] rs]; [eauto|].
  case_decide; eauto.
Qed.

Lemma covers_cons r rs x : covers (r :: rs) x ↔ r.1 ≤ x ≤ r.2 ∨ covers rs x.
Proof.
  unfold covers. split.
  - intros (r' & [->|Hin]%elem_of_cons & Hx); eauto.
  - intros [Hx|(r' & Hin & Hx)]; [exists r | exists r'];
      rewrite elem_of_cons; auto.
Qed.

(** The runs of an ascending list are well-formed intervals whose union is
    the list. *)
Lemma spec_runs_cover l :
  Sorted N.lt l →
  Forall (λ r, r.1 ≤ r.2) (spec_runs l) ∧ ∀ x, x ∈ l ↔ covers (spec_runs l) x.
Proof.
  induction l as [|c [|c' l] IH]; intros Hl.
  - split; [constructor|]. intros x. split; [by intros ?%elem_of_nil|].
    by intros (r & ?%elem_of_nil & _).
  - split; [by repeat constructor|]. intros x. simpl.
    rewrite covers_cons, list_elem_of_singleton. simpl. split; [intros ->; lia|].
    intros [?|(r & ?%elem_of_nil & _)]; [lia|done].
  - apply Sorted_inv in Hl as [Hl Hhd]. apply HdRel_inv in Hhd.
    destruct (IH Hl) as [Hwf Hmem]. clear IH.
    rewrite spec_runs_cons.
    destruct (spec_runs_head c' l) as (b & rs & Hruns).
    rewrite Hruns in Hwf, Hmem |- *.
    apply Forall_cons in Hwf as [Hb Hwf]. simpl in Hb.
    case_decide as Hgap.
    + split; [constructor; [simpl; lia | done]|].
      intros x. rewrite elem_of_cons, Hmem, !covers_cons. simpl. split.
      * intros [->|[?|?]]; [left; lia | left; lia | by right].
      * intros [?|?]; [|by right; right].
        destruct (decide (x = c)); [by left | right; left; lia].
    + split; [constructor; [simpl; lia|]; by constructor|].
      intros x. rewrite elem_of_cons, Hmem, !covers_cons. simpl. split.
      * intros [->|[?|?]]; [left; lia | right; by left | right; by right].
      * intros [?|[?|?]]; [left; lia | right; by left | right; by right].
Qed.

Lemma spec_segments_cover l :
  StronglySorted N.lt l →
  Forall (λ r, r.1 ≤ r.2) (spec_segments l)
  ∧ ∀ x, x ∈ l ↔ covers (spec_segments l) x.
Proof.
  intros Hl. unfold spec_segments. case_decide.
  { by apply spec_runs_cover, StronglySorted_Sorted. }
  clear. induction l as [|c l [IHwf IHmem]].
  - split; [constructor|]. intros x. split; [by intros ?%elem_of_nil|].
    by intros (r & ?%elem_of_nil & _).
  - rewrite fmap_cons. split; [by constructor|].
    intros x. rewrite elem_of_cons, covers_cons, IHmem. simpl.
    split; (intros [?|?]; [left; lia | by right]).
Qed.
End runs_facts.

(** ** Reading the output back as a character class *)

Section class_facts.
Implicit Types (s body : list N) (c x : N) (r : N * N) (rs : list (N * N))
  (t : token) (ts : list token).

Lemma special_chars c :
  (c ∈ py "\^-][" ↔ c ∈ py "\^-[]")
  ∧ (c ∈ py "\^-[]" ↔ c = 92 ∨ c = 94 ∨ c = 45 ∨ c = 91 ∨ c = 93).
Proof.
  change (py "\^-][") with [92; 94; 45; 93; 91].
  change (py "\^-[]") with [92; 94; 45; 91; 93].
  rewrite !elem_of_cons, !elem_of_nil. naive_solver.
Qed.

Lemma lex_escape c s :
  lex (escape_re_range_char c ++ s) = cons (spec_token c) <$> lex s.
Proof.
  unfold escape_re_range_char, spec_token.
  destruct (special_chars c) as [Hsame Hfive].
  case_decide as Hc.
  - by rewrite decide_True by (by apply Hsame).
  - rewrite decide_False by (by rewrite <-Hsame). simpl.
    rewrite decide_False; [done|].
    intros ->. apply Hc, Hsame, Hfive. by left.
Qed.

Lemma lex_piece r s :
  lex (piece escape_re_range_char r ++ s) = app (spec_run_tokens r) <$> lex s.
Proof.
  destruct r as [a b]. unfold piece, spec_run_tokens.
  case_decide.
  { rewrite lex_escape. by destruct (lex s). }
  rewrite <-!app_assoc, lex_escape. case_decide.
  - simpl. rewrite lex_escape. by destruct (lex s).
  - change (py "-" ++ escape_re_range_char b ++ s)
      with (45 :: (escape_re_range_char b ++ s)).
    cbn [lex]. rewrite decide_False by done. rewrite lex_escape.
    by destruct (lex s).
Qed.

Lemma lex_pieces rs :
  lex (concat (piece escape_re_range_char <$> rs))
  = Some (rs ≫= spec_run_tokens).
Proof.
  induction rs as [|r rs IH]; [done|].
  rewrite fmap_cons, bind_cons. simpl. by rewrite lex_piece, IH.
Qed.

Lemma atom_spec_token c : atom (spec_token c) = Some c.
Proof.
  unfold spec_token, atom. destruct (special_chars c) as [_ Hfive].
  case_decide as Hc.
  - apply Hfive in Hc. by destruct Hc as [->|[->|[->|[->| ->]]]].
  - apply decide_False. intros ->. apply Hc, Hfive. naive_solver.
Qed.

Lemma spec_token_not_raw_special c d :
  d ∈ py "\^-[]" → spec_token c ≠ Raw d.
Proof.
  unfold spec_token. intros Hd. case_decide; [done|]. congruence.
Qed.

Lemma spec_tokens_head rs d rest :
  d ∈ py "\^-[]" → rs ≫= spec_run_tokens ≠ Raw d :: rest.
Proof.
  intros Hd. destruct rs as [|[a b] rs]; [done|].
  rewrite bind_cons. unfold spec_run_tokens.
  repeat case_decide; simpl; intros [= Heq _];
    by apply (spec_token_not_raw_special a d).
Qed.

Lemma items_cons_single t ts :
  (∀ rest, ts ≠ Raw 45 :: rest) →
  items (t :: ts) = atom t ≫= λ a, cons (Single a) <$> items ts.
Proof.
  intros Hts. cbn [items]. destruct (atom t) as [a|]; [|done]. simpl.
  destruct ts as [|[e|d] [|u ts]]; try done.
  case_decide; [|done]. subst. by destruct (Hts (u :: ts)).
Qed.

Lemma items_run r ts :
  r.1 ≤ r.2 → (∀ rest, ts ≠ Raw 45 :: rest) →
  items (spec_run_tokens r ++ ts) = app (spec_run_items r) <$> items ts.
Proof.
  destruct r as [a b]. simpl. intros Hab Hts.
  assert (Hdash : 45 ∈ py "\^-[]") by (apply special_chars; auto).
  unfold spec_run_tokens, spec_run_items. repeat case_decide.
  - simpl app. rewrite items_cons_single, atom_spec_token by done.
    simpl. by destruct (items ts).
  - simpl app. rewrite items_cons_single, atom_spec_token.
    + cbn [mbind option_bind].
      rewrite items_cons_single, atom_spec_token by done.
      simpl. by destruct (items ts).
    + intros rest [= Heq _]. by apply (spec_token_not_raw_special b 45).
  - simpl app. cbn [items]. rewrite !atom_spec_token. simpl.
    rewrite decide_False by lia. by destruct (items ts).
Qed.

Lemma items_runs rs :
  Forall (λ r, r.1 ≤ r.2) rs →
  items (rs ≫= spec_run_tokens) = Some (rs ≫= spec_run_items).
Proof.
  assert (Hdash : 45 ∈ py "\^-[]") by (apply special_chars; auto).
  induction 1 as [|r rs Hr Hrs IH]; [done|].
  rewrite !bind_cons, items_run, IH; [done|done|].
  intros rest. by apply spec_tokens_head.
Qed.

Lemma lex_head_not_caret body ts :
  lex body = Some ts → (∀ rest, ts ≠ Raw 94 :: rest) →
  char_class body = items ts.
Proof.
  intros Hlex Hts. unfold char_class. destruct body as [|c body].
  { by injection Hlex as <-. }
  rewrite decide_False; [by rewrite Hlex|].
  intros ->. simpl in Hlex. destruct (lex body) as [ts'|]; [|done].
  injection Hlex as <-. by destruct (Hts ts').
Qed.

Lemma class_matches_app cls1 cls2 x :
  class_matches (cls1 ++ cls2) x = class_matches cls1 x || class_matches cls2 x.
Proof. apply existsb_app. Qed.

Lemma class_matches_run r x :
  r.1 ≤ r.2 → class_matches (spec_run_items r) x = true ↔ r.1 ≤ x ≤ r.2.
Proof.
  destruct r as [a b]. simpl. intros Hab. unfold spec_run_items.
  repeat case_decide; simpl; rewrite ?orb_false_r, ?orb_true_iff,
    ?bool_decide_eq_true; lia.
Qed.

Lemma class_matches_runs rs x :
  Forall (λ r, r.1 ≤ r.2) rs →
  class_matches (rs ≫= spec_run_items) x = true ↔ covers rs x.
Proof.
  induction 1 as [|r rs Hr Hrs IH].
  - split; [done|]. by intros (r & ?%elem_of_nil & _).
  - rewrite bind_cons, class_matches_app, orb_true_iff, covers_cons, IH.
    by rewrite class_matches_run.
Qed.
End class_facts.

(** ** _escape_regex_range_chars, character by character *)

Section escape_facts.
Implicit Types (s : list N) (c : N).

Lemma replace_app old new s1 s2 :
  replace old new (s1 ++ s2) = replace old new s1 ++ replace old new s2.
Proof. apply bind_app. Qed.

Lemma escape_regex_range_chars_app s1 s2 :
  _escape_regex_range_chars (s1 ++ s2)
  = _escape_regex_range_chars s1 ++ _escape_regex_range_chars s2.
Proof.
  unfold _escape_regex_range_chars.
  change (py "\^-[]") with [92; 94; 45; 91; 93].
  cbn [foldl]. by rewrite !replace_app.
Qed.

Lemma escape_regex_range_chars_one c :
  _escape_regex_range_chars [c] = spec_escape_char c.
Proof.
  unfold spec_escape_char. destruct (special_chars c) as [_ Hfive].
  case_decide as Hc.
  { apply Hfive in Hc. by destruct Hc as [->|[->|[->|[->| ->]]]]. }
  assert (c ≠ 92 ∧ c ≠ 94 ∧ c ≠ 45 ∧ c ≠ 91 ∧ c ≠ 93) as (?&?&?&?&?).
  { split_and!; intros ->; apply Hc, Hfive; naive_solver. }
  repeat case_decide; subst; try done.
  unfold _escape_regex_range_chars, replace.
  change (py "\^-[]") with [92; 94; 45; 91; 93].
  cbn [foldl mbind list_bind app]. rewrite !decide_False by done.
  cbn [app mbind list_bind]. rewrite !decide_False by done.
  cbn [app mbind list_bind]. rewrite !decide_False by done.
  cbn [app mbind list_bind]. rewrite !decide_False by done.
  cbn [app mbind list_bind]. rewrite !decide_False by done.
  cbn [app mbind list_bind]. rewrite !decide_False by done.
  cbn [app mbind list_bind]. by rewrite !decide_False by done.
Qed.

Lemma escape_regex_range_chars_spec s :
  _escape_regex_range_chars s = s ≫= spec_escape_char.
Proof.
  induction s as [|c s IH]; [done|].
  change (c :: s) with ([c] ++ s).
  by rewrite escape_regex_range_chars_app, bind_app, IH,
    escape_regex_range_chars_one, bind_cons, app_nil_r.
Qed.
End escape_facts.

(** ** _collapse_string_to_ranges *)

Section collapse_claims.
Implicit Types (s l : list N) (c x : N).

Lemma collapse_lex s :
  lex (_collapse_string_to_ranges s true)
  = Some (spec_segments (sorted_set s) ≫= spec_run_tokens).
Proof. by rewrite collapse_by_segments, lex_pieces. Qed.

Lemma raw_run_token r d :
  Raw d ∈ spec_run_tokens r → d ∈ py "\^-[]" → d = 45.
Proof.
  destruct r as [a b]. unfold spec_run_tokens. intros Hin Hd.
  repeat case_decide;
    repeat (apply elem_of_cons in Hin as [Hin|Hin]);
    try (by apply elem_of_nil in Hin);
    try (by symmetry in Hin; apply spec_token_not_raw_special in Hin);
    by injection Hin.
Qed.

(** C2 (as amended).  With escaping on, the compactor writes every member it
    emits (a run boundary or a member on its own) through
    [escape_re_range_char]: read back token by token, the output is, run by
    run, the specification's tokens, in which each of the five characters
    backslash, caret, hyphen and the two brackets carries a backslash, and
    the only unescaped one of the five is the hyphen that separates the ends
    of a run.  Newline and tab are emitted raw by the compactor; the
    two-character sequences for them are written by
    [_escape_regex_range_chars] alone, which the compactor does not call. *)
Theorem collapse_escapes_the_five_characters s :
  lex (_collapse_string_to_ranges s true)
  = Some (spec_segments (sorted_set s) ≫= spec_run_tokens)
  ∧ (∀ ts d, lex (_collapse_string_to_ranges s true) = Some ts →
       Raw d ∈ ts → d ∈ py "\^-[]" → d = 45)
  ∧ _collapse_string_to_ranges [10] true = [10]
  ∧ _collapse_string_to_ranges [9] true = [9]
  ∧ _escape_regex_range_chars s = s ≫= spec_escape_char.
Proof.
  split_and!.
  - apply collapse_lex.
  - intros ts d. rewrite collapse_lex. intros [= <-].
    intros (r & Hin & _)%list_elem_of_bind. by apply (raw_run_token r).
  - by vm_compute.
  - by vm_compute.
  - apply escape_regex_range_chars_spec.
Qed.

(** C2, refuted: the set holding only a newline is emitted as the newline
    itself, not as a backslash and an [n]. *)
Lemma collapse_newline_is_raw :
  _collapse_string_to_ranges [10] true = [10]
  ∧ _collapse_string_to_ranges [10] true ≠ py "\n".
Proof. split; [by vm_compute | by vm_compute]. Qed.

(** C8.  When the set has at most three members, the output is the members
    in ascending order, each written on its own (through the escape function
    when escaping is on), whatever their gaps; and the four examples. *)
Theorem collapse_up_to_three_members s l (re_escape : bool) :
  StronglySorted N.lt l → (∀ c, c ∈ l ↔ c ∈ s) → (length l ≤ 3)%nat →
  _collapse_string_to_ranges s re_escape
  = concat ((if re_escape then escape_re_range_char
             else no_escape_re_range_char) <$> l)
  ∧ _collapse_string_to_ranges [] re_escape = []
  ∧ _collapse_string_to_ranges (py "a") re_escape = py "a"
  ∧ _collapse_string_to_ranges (py "ac") re_escape = py "ac"
  ∧ _collapse_string_to_ranges (py "abcd") re_escape = py "a-d".
Proof.
  intros Hl Hmem Hlen. split_and!.
  - unfold _collapse_string_to_ranges.
    rewrite (sorted_set_unique s l Hl Hmem).
    by rewrite decide_False by lia.
  - by destruct re_escape; vm_compute.
  - by destruct re_escape; vm_compute.
  - by destruct re_escape; vm_compute.
  - by destruct re_escape; vm_compute.
Qed.

Lemma collapse_up_to_three_members_witness :
  _collapse_string_to_ranges (py "c-a-c") true = py "\-ac"
  ∧ _collapse_string_to_ranges [] true = []
  ∧ _collapse_string_to_ranges (py "a") true = py "a"
  ∧ _collapse_string_to_ranges (py "ac") true = py "ac"
  ∧ _collapse_string_to_ranges (py "abcd") true = py "a-d".
Proof.
  refine (collapse_up_to_three_members (py "c-a-c") [45; 97; 99] true _ _ _).
  - repeat constructor; lia.
  - intros c. change (py "c-a-c") with [99; 45; 97; 45; 99].
    rewrite !elem_of_cons, !elem_of_nil. naive_solver.
  - simpl. lia.
Defined.

(** C9.  For every input [s], the output of the compactor (escaping on) is
    the body of a character class, and that class matches exactly the
    members of [s]. *)
Theorem collapse_round_trip s :
  ∃ cls, char_class (_collapse_string_to_ranges s true) = Some cls
         ∧ ∀ c, class_matches cls c = true ↔ c ∈ s.
Proof.
  destruct (spec_segments_cover (sorted_set s) (sorted_set_ascending s))
    as [Hwf Hmem].
  exists (spec_segments (sorted_set s) ≫= spec_run_items). split.
  - rewrite (lex_head_not_caret _ _ (collapse_lex s)).
    + by apply items_runs.
    + intros rest. apply spec_tokens_head, special_chars. auto.
  - intros c. by rewrite class_matches_runs, <-Hmem, sorted_set_elem.
Qed.

(** With escaping off the output need not denote the set: the hyphen of
    [+-ab] is read as a range from [+] to [a]. *)
Lemma collapse_unescaped_is_not_faithful :
  char_class (_collapse_string_to_ranges (py "+-ab") false)
  = Some [Range 43 97; Single 98].
Proof. by vm_compute. Qed.
End collapse_claims.

(** * Further properties *)

(** ** _FifoCache over sequences of calls *)

Section fifo_more.
Local Arguments OrderedDict.keys : simpl never.
Context {K : Type} `{EqDecision K} {V : Type}.
Implicit Types (self : _FifoCache.t K V) (c : list (K * V)) (key k : K) (v : V).

Lemma od_setitem_length_in key v c :
  key ∈ OrderedDict.keys c →
  length (OrderedDict.setitem key v c) = length c.
Proof.
  unfold OrderedDict.keys.
  induction c as [|[k w] c IH]; simpl; [by intros ?%elem_of_nil|].
  case_decide; [done|]. rewrite elem_of_cons. intros [?|Hin]; [by subst|].
  simpl. by rewrite IH.
Qed.

Lemma od_setitem_length key v c :
  (length (OrderedDict.setitem key v c) ≤ S (length c))%nat.
Proof.
  induction c as [|[k w] c IH]; simpl; [lia|]. case_decide; simpl; lia.
Qed.

Lemma od_keys_setitem_in key v c :
  key ∈ OrderedDict.keys c →
  OrderedDict.keys (OrderedDict.setitem key v c) = OrderedDict.keys c.
Proof.
  unfold OrderedDict.keys.
  induction c as [|[k w] c IH]; simpl; [by intros ?%elem_of_nil|].
  case_decide; [done|]. rewrite elem_of_cons. intros [?|Hin]; [by subst|].
  simpl. f_equal. by apply IH.
Qed.

Lemma tail_suffix c : tail c `suffix_of` c.
Proof. destruct c; [done | by apply suffix_cons_r]. Qed.

(** With a size of zero or more the loop stops normally, on a suffix that
    fits. *)
Lemma trim_nonnegative size c :
  (0 ≤ size)%Z →
  ∃ c', _FifoCache.trim size c = (Return (), c')
        ∧ c' `suffix_of` c ∧ (Z.of_nat (length c') ≤ size)%Z.
Proof.
  intros Hsize. induction c as [|kv c (c' & Htrim & Hsuf & Hlen)].
  - exists []. rewrite trim_nil, decide_False by lia. simpl. split_and!; [done|done|lia].
  - rewrite trim_cons. case_decide.
    + exists c'. split_and!; [done | by apply suffix_cons_r | done].
    + exists (kv :: c). split_and!; [done | done | lia].
Qed.

Lemma fifo_set_inv size key v self :
  (0 ≤ size)%Z → _FifoCache.within_bound size self →
  (_FifoCache.set_ key v self).1 = Return ()
  ∧ _FifoCache.within_bound size (_FifoCache.set_ key v self).2.
Proof.
  intros Hsize (Hs & Hnd & Hlen). unfold _FifoCache.set_. rewrite Hs.
  destruct (trim_nonnegative size
              (OrderedDict.setitem key v (_FifoCache.cache self)) Hsize)
    as (c' & -> & Hsuf & Hlen').
  split; [done|]. split_and!; simpl; [done| |done].
  eapply suffix_keys_NoDup; [done|]. by apply od_NoDup_setitem.
Qed.

Lemma fifo_after_inv size call self :
  (0 ≤ size)%Z → _FifoCache.within_bound size self →
  _FifoCache.within_bound size (_FifoCache.after call self).
Proof.
  intros Hsize Hinv. destruct call as [key|key v|]; simpl.
  - done.
  - by apply fifo_set_inv.
  - destruct Hinv as (Hs & _ & _). split_and!; simpl; [done|constructor|lia].
Qed.

Lemma fifo_reachable_inv size self :
  (0 ≤ size)%Z → _FifoCache.reachable size self → _FifoCache.within_bound size self.
Proof.
  intros Hsize. induction 1 as [self [= <-] | call self _ IH].
  - split_and!; simpl; [done|constructor|lia].
  - by apply fifo_after_inv.
Qed.

(** X1.  A [_FifoCache] built with a size of zero or more never holds more
    than [size] entries and never holds a key twice, whatever calls were
    made; and on it [set] always returns normally. *)
Theorem fifo_never_exceeds_size size self :
  (0 ≤ size)%Z → _FifoCache.reachable size self →
  (Z.of_nat (length (_FifoCache.cache self)) ≤ size)%Z
  ∧ NoDup (OrderedDict.keys (_FifoCache.cache self))
  ∧ ∀ key v, (_FifoCache.set_ key v self).1 = Return ().
Proof.
  intros Hsize Hr. destruct (fifo_reachable_inv size self Hsize Hr) as (Hs & Hnd & Hlen).
  split_and!; [done|done|].
  intros key v. by apply (fifo_set_inv size).
Qed.

(** X2.  On a [_FifoCache] with a negative size every [set] raises
    [KeyError] and leaves the cache empty: nothing can be stored. *)
Theorem fifo_negative_size_set_raises key v self :
  (_FifoCache.size self < 0)%Z →
  _FifoCache.set_ key v self
  = (Raise KeyError,
     {| _FifoCache.size := _FifoCache.size self; _FifoCache.cache := [] |}).
Proof. intros Hneg. unfold _FifoCache.set_. by rewrite trim_negative. Qed.

(** X3.  On a cache of size one or more that is within its bound, the key
    just set is found with the value set: the entry evicted by a [set] is
    never the one it stores. *)
Theorem fifo_get_after_set key v self :
  (1 ≤ _FifoCache.size self)%Z →
  NoDup (OrderedDict.keys (_FifoCache.cache self)) →
  (Z.of_nat (length (_FifoCache.cache self)) ≤ _FifoCache.size self)%Z →
  (_FifoCache.get key (_FifoCache.set_ key v self).2).1 = Return (hit v).
Proof.
  intros Hsize Hnd Hlen.
  destruct (decide (key ∈ OrderedDict.keys (_FifoCache.cache self))) as [Hin|Hnew].
  - rewrite fifo_set_room by (rewrite od_setitem_length_in by done; lia).
    unfold _FifoCache.get. simpl. by rewrite od_get_setitem_eq.
  - destruct (decide (Z.of_nat (length (_FifoCache.cache self))
                      = _FifoCache.size self)) as [Hfull|Hroom].
    + rewrite fifo_set_full by done. unfold _FifoCache.get. simpl.
      rewrite od_get_app.
      assert (OrderedDict.get key (tail (_FifoCache.cache self)) = None) as ->.
      { apply od_get_None. intros Hin. apply Hnew.
        eapply suffix_keys; [|done]. apply tail_suffix. }
      simpl. by rewrite decide_True.
    + rewrite fifo_set_room.
      * unfold _FifoCache.get. simpl. by rewrite od_get_setitem_eq.
      * pose proof (od_setitem_length key v (_FifoCache.cache self)). lia.
Qed.

(** X4.  Setting a key that is already cached replaces its value where it
    stands: the insertion order, hence the order of eviction, is unchanged,
    and nothing is evicted. *)
Theorem fifo_overwrite_keeps_order key v self :
  key ∈ OrderedDict.keys (_FifoCache.cache self) →
  (Z.of_nat (length (_FifoCache.cache self)) ≤ _FifoCache.size self)%Z →
  (_FifoCache.set_ key v self).1 = Return ()
  ∧ OrderedDict.keys (_FifoCache.cache (_FifoCache.set_ key v self).2)
    = OrderedDict.keys (_FifoCache.cache self)
  ∧ OrderedDict.get key (_FifoCache.cache (_FifoCache.set_ key v self).2)
    = Some v.
Proof.
  intros Hin Hlen.
  rewrite fifo_set_room by (rewrite od_setitem_length_in by done; lia).
  simpl. by rewrite od_keys_setitem_in, od_get_setitem_eq.
Qed.
End fifo_more.

(** ** _UnboundedCache over sequences of calls *)

Section unbounded_more.
Context {K : Type} `{Countable K} {V : Type}.
Implicit Types (self : _UnboundedCache.t K V) (key k : K) (v : V).

Lemma unbounded_after_keeps key v c self :
  _UnboundedCache.keeps key c →
  _UnboundedCache.cache self !! key = Some v →
  _UnboundedCache.cache (_UnboundedCache.after c self) !! key = Some v.
Proof.
  destruct c as [k|k w|]; simpl; [done| |done].
  intros Hne Hv. by rewrite lookup_insert_ne.
Qed.

(** X5.  In an [_UnboundedCache] nothing is ever evicted: a key that was set
    is found with its value after any further calls that neither clear the
    cache nor set that key again. *)
Theorem unbounded_get_after_set key v cs self :
  Forall (_UnboundedCache.keeps key) cs →
  _UnboundedCache.get key
    (_UnboundedCache.run cs (_UnboundedCache.set_ key v self).2)
  = (Return (hit v),
     _UnboundedCache.run cs (_UnboundedCache.set_ key v self).2).
Proof.
  intros Hcs.
  assert (Hv : _UnboundedCache.cache (_UnboundedCache.set_ key v self).2 !! key
               = Some v) by apply lookup_insert_eq.
  revert Hv. generalize (_UnboundedCache.set_ key v self).2.
  induction Hcs as [|c cs Hc Hcs IH]; intros s Hv.
  - unfold _UnboundedCache.get. simpl. by rewrite Hv.
  - apply IH. by apply unbounded_after_keeps.
Qed.
End unbounded_more.

(** ** LRUMemo over sequences of calls *)

Section lru_more.
Local Arguments OrderedDict.keys : simpl never.
Context {K : Type} `{Countable K} {V : Type}.
Implicit Types (self : LRUMemo.t K V) (m : list (K * V)) (key k : K) (v : V).

Lemma od_pop_length_le key m : (length (OrderedDict.pop key m) ≤ length m)%nat.
Proof.
  induction m as [|[k w] m IH]; simpl; [lia|]. case_decide; simpl; lia.
Qed.

(** With a capacity of one or more the loop stops normally, leaving room for
    one entry. *)
Lemma evict_positive capacity m :
  (1 ≤ capacity)%Z →
  ∃ m', LRUMemo.evict capacity m = (Return (), m')
        ∧ m' `suffix_of` m ∧ (Z.of_nat (length m') < capacity)%Z.
Proof.
  intros Hcap. induction m as [|kv m (m' & Hev & Hsuf & Hlen)].
  - exists []. rewrite evict_nil, decide_False by lia.
    simpl. split_and!; [done|done|lia].
  - rewrite evict_cons. case_decide.
    + exists m'. split_and!; [done | by apply suffix_cons_r | done].
    + exists (kv :: m). split_and!; [done | done | lia].
Qed.

(** A lookup changes neither the capacity, nor [_active], nor the number of
    retired entries. *)
Lemma lru_getitem_state key self :
  LRUMemo._capacity (LRUMemo.__getitem__ key self).2 = LRUMemo._capacity self
  ∧ LRUMemo._active (LRUMemo.__getitem__ key self).2 = LRUMemo._active self
  ∧ length (LRUMemo._memory (LRUMemo.__getitem__ key self).2)
    = length (LRUMemo._memory self).
Proof.
  unfold LRUMemo.__getitem__.
  destruct (LRUMemo._active self !! key); [done|].
  unfold OrderedDict.move_to_end, OrderedDict.getitem.
  destruct (OrderedDict.get key (LRUMemo._memory self)) as [v|] eqn:Hm; [|done].
  assert (Hlen := od_pop_length key v _ Hm).
  destruct (OrderedDict.get key
              (OrderedDict.pop key (LRUMemo._memory self) ++ [(key, v)]));
    simpl; (split_and!; [done|done|]); rewrite length_app; simpl; lia.
Qed.

Lemma lru_delitem_within capacity key self :
  (1 ≤ capacity)%Z → LRUMemo.within_capacity capacity self →
  (LRUMemo.__delitem__ key self).1 = Return ()
  ∧ LRUMemo.within_capacity capacity (LRUMemo.__delitem__ key self).2.
Proof.
  intros Hcap [Hc Hlen]. unfold LRUMemo.__delitem__.
  destruct (LRUMemo._active self !! key) as [v|]; [|done].
  rewrite Hc.
  destruct (evict_positive capacity (LRUMemo._memory self) Hcap)
    as (m' & -> & _ & Hlen').
  split; [done|]. split; simpl; [done|].
  pose proof (od_setitem_length key v m'). lia.
Qed.

Lemma lru_after_within capacity c self :
  (1 ≤ capacity)%Z → LRUMemo.within_capacity capacity self →
  LRUMemo.within_capacity capacity (LRUMemo.after c self).
Proof.
  intros Hcap Hin. destruct c as [key|key v|key|]; simpl.
  - destruct Hin as [Hc Hlen].
    destruct (lru_getitem_state key self) as (Hc' & _ & Hlen').
    split; [congruence | lia].
  - destruct Hin as [Hc Hlen]. split; simpl; [done|].
    pose proof (od_pop_length_le key (LRUMemo._memory self)). lia.
  - by apply lru_delitem_within.
  - destruct Hin as [Hc Hlen]. split; simpl; [done|lia].
Qed.

(** X6.  An [LRUMemo] built with a capacity of one or more never retains
    more than [capacity] released entries, whatever calls were made; and on
    it [__delitem__] always returns normally. *)
Theorem lru_memory_within_capacity capacity self :
  (1 ≤ capacity)%Z → LRUMemo.reachable capacity self →
  (Z.of_nat (length (LRUMemo._memory self)) ≤ capacity)%Z
  ∧ ∀ key, (LRUMemo.__delitem__ key self).1 = Return ().
Proof.
  intros Hcap Hr.
  assert (Hin : LRUMemo.within_capacity capacity self).
  { induction Hr as [self [= <-] | c self _ IH].
    - split; simpl; [done|lia].
    - by apply lru_after_within. }
  split; [apply Hin|]. intros key. by apply (lru_delitem_within capacity).
Qed.

Lemma lru_after_spares key v c self :
  LRUMemo.spares key c →
  LRUMemo._active self !! key = Some v →
  LRUMemo._active (LRUMemo.after c self) !! key = Some v.
Proof.
  destruct c as [k|k w|k|]; simpl; [| | |done].
  - intros _ Hv. destruct (lru_getitem_state k self) as (_ & -> & _). done.
  - intros Hne Hv. by rewrite lookup_insert_ne.
  - intros Hne Hv. unfold LRUMemo.__delitem__.
    destruct (LRUMemo._active self !! k); [|done].
    destruct (LRUMemo.evict _ _) as [[[]|e] m']; simpl;
      by rewrite lookup_delete_ne.
Qed.

(** X7.  An active entry is exempt from eviction: after any calls that do
    not set, release or clear its key (lookups of any key, sets and releases
    of other keys, also releases that raise), and for any capacity, the key
    is still active and is found with its value, the lookup changing
    nothing. *)
Theorem lru_active_entry_survives key v cs self :
  LRUMemo._active self !! key = Some v →
  Forall (LRUMemo.spares key) cs →
  LRUMemo._active (LRUMemo.run cs self) !! key = Some v
  ∧ LRUMemo.__getitem__ key (LRUMemo.run cs self)
    = (Return v, LRUMemo.run cs self).
Proof.
  intros Hv Hcs.
  assert (Hrun : LRUMemo._active (LRUMemo.run cs self) !! key = Some v).
  { revert self Hv. induction Hcs as [|c cs Hc Hcs IH]; intros self Hv; [done|].
    apply IH. by apply lru_after_spares. }
  split; [done | by apply lru_getitem_active].
Qed.

(** X8.  With a capacity of one or more, releasing an active key returns
    normally and retains the entry: the key is no longer active, and a
    lookup still finds the value it had. *)
Theorem lru_released_entry_is_retained key v self :
  LRUMemo.well_formed self →
  (1 ≤ LRUMemo._capacity self)%Z →
  LRUMemo._active self !! key = Some v →
  (LRUMemo.__delitem__ key self).1 = Return ()
  ∧ LRUMemo._active (LRUMemo.__delitem__ key self).2 !! key = None
  ∧ (LRUMemo.__getitem__ key (LRUMemo.__delitem__ key self).2).1 = Return v.
Proof.
  intros Hwf Hcap Hv.
  destruct (lru_delitem_well_formed key self Hwf) as [Hnd _].
  revert Hnd. unfold LRUMemo.__delitem__. rewrite Hv.
  destruct (evict_positive _ (LRUMemo._memory self) Hcap) as (m' & -> & _ & _).
  simpl. intros Hnd. split_and!; [done | apply lookup_delete_eq |].
  rewrite (lru_getitem_retired key v); [done | done | apply lookup_delete_eq |].
  simpl. apply od_get_setitem_eq.
Qed.

(** X9.  Releasing a key twice is releasing it once: whatever the first
    [__delitem__] did (also when it raised), the second returns normally and
    changes nothing. *)
Theorem lru_delitem_twice key self :
  LRUMemo.__delitem__ key (LRUMemo.__delitem__ key self).2
  = (Return (), (LRUMemo.__delitem__ key self).2).
Proof.
  apply lru_delitem_inactive. unfold LRUMemo.__delitem__.
  destruct (LRUMemo._active self !! key) eqn:Hv; [|done].
  destruct (LRUMemo.evict _ _) as [[[]|e] m']; simpl; apply lookup_delete_eq.
Qed.

(** X10.  With a capacity of zero or less nothing is retained: releasing an
    active key raises [KeyError], drops the key from [_active] and empties
    [_memory], so that the key is no longer found. *)
Theorem lru_nonpositive_capacity_loses_entry key v self :
  (LRUMemo._capacity self ≤ 0)%Z →
  LRUMemo._active self !! key = Some v →
  (LRUMemo.__delitem__ key self).1 = Raise KeyError
  ∧ LRUMemo._memory (LRUMemo.__delitem__ key self).2 = []
  ∧ (LRUMemo.__getitem__ key (LRUMemo.__delitem__ key self).2).1
    = Raise KeyError.
Proof.
  intros Hcap Hv. rewrite (lru_delitem_nonpositive_capacity key v) by done.
  split_and!; [done|done|].
  rewrite lru_getitem_absent; [done | apply lookup_delete_eq |].
  simpl. apply not_elem_of_nil.
Qed.
End lru_more.

(** ** _collapse_string_to_ranges and _escape_regex_range_chars, further *)

Section collapse_more.
Implicit Types (s l : list N) (c x a b : N) (r : N * N) (rs : list (N * N)).

(** X11.  The output depends on the set of characters only: two inputs with
    the same members, in any order and with any repetitions, give the same
    string. *)
Theorem collapse_depends_on_members_only s1 s2 (re_escape : bool) :
  (∀ c, c ∈ s1 ↔ c ∈ s2) →
  _collapse_string_to_ranges s1 re_escape
  = _collapse_string_to_ranges s2 re_escape.
Proof.
  intros Hmem. unfold _collapse_string_to_ranges.
  rewrite (sorted_set_unique s1 (sorted_set s2)); [done| |].
  - apply sorted_set_ascending.
  - intros c. by rewrite sorted_set_elem, Hmem.
Qed.

Lemma collapse_depends_on_members_only_witness :
  _collapse_string_to_ranges (py "banana") true
  = _collapse_string_to_ranges (py "nab") true.
Proof.
  apply (collapse_depends_on_members_only (py "banana") (py "nab") true).
  intros c. change (py "banana") with [98; 97; 110; 97; 110; 97].
  change (py "nab") with [110; 97; 98].
  rewrite !elem_of_cons, !elem_of_nil. naive_solver.
Defined.

Lemma token_char_spec_token c : token_char (spec_token c) = c.
Proof. unfold spec_token. by case_decide. Qed.

Lemma token_chars_run r :
  token_char <$> spec_run_tokens r = piece no_escape_re_range_char r.
Proof.
  destruct r as [a b]. unfold spec_run_tokens, piece, no_escape_re_range_char.
  repeat case_decide; simpl; by rewrite !token_char_spec_token.
Qed.

(** X12.  Escaping only adds backslashes: read token by token, the escaped
    output spells the unescaped output. *)
Theorem collapse_escaped_spells_unescaped s :
  ∃ ts, lex (_collapse_string_to_ranges s true) = Some ts
        ∧ token_char <$> ts = _collapse_string_to_ranges s false.
Proof.
  exists (spec_segments (sorted_set s) ≫= spec_run_tokens).
  split; [apply collapse_lex|].
  rewrite collapse_by_segments.
  induction (spec_segments (sorted_set s)) as [|r rs IH]; [done|].
  rewrite bind_cons, fmap_app, fmap_cons, IH, token_chars_run. done.
Qed.

Lemma spec_runs_ends l r : r ∈ spec_runs l → r.1 ∈ l ∧ r.2 ∈ l.
Proof.
  revert r. induction l as [|c l IH]; intros r; [by intros ?%elem_of_nil|].
  rewrite spec_runs_cons. destruct (spec_runs l) as [|[a b] rs].
  - intros ->%list_elem_of_singleton. simpl. split; by left.
  - assert (Hab := IH (a, b) ltac:(by left)). simpl in Hab.
    case_decide.
    + intros [->|Hin]%elem_of_cons; simpl.
      * split; [by left | right; apply Hab].
      * destruct (IH r ltac:(by right)). split; by right.
    + intros [->|Hin]%elem_of_cons; simpl.
      * split; by left.
      * destruct (IH r Hin). split; by right.
Qed.

Lemma spec_segments_ends l r : r ∈ spec_segments l → r.1 ∈ l ∧ r.2 ∈ l.
Proof.
  unfold spec_segments. case_decide; [apply spec_runs_ends|].
  intros (c & -> & Hc)%list_elem_of_fmap. done.
Qed.

Lemma escape_plain c :
  c ∉ py "\^-[]" → escape_re_range_char c = no_escape_re_range_char c.
Proof.
  intros Hc. unfold escape_re_range_char. apply decide_False.
  by rewrite (proj1 (special_chars c)).
Qed.

(** X13.  On a set that holds none of the five characters the flag makes no
    difference, and the unescaped output too denotes exactly the set. *)
Theorem collapse_plain_set s :
  (∀ c, c ∈ s → c ∉ py "\^-[]") →
  _collapse_string_to_ranges s false = _collapse_string_to_ranges s true
  ∧ ∃ cls, char_class (_collapse_string_to_ranges s false) = Some cls
           ∧ ∀ c, class_matches cls c = true ↔ c ∈ s.
Proof.
  intros Hplain.
  assert (Heq : _collapse_string_to_ranges s false
                = _collapse_string_to_ranges s true).
  { rewrite !collapse_by_segments. f_equal. apply list_fmap_ext.
    intros _ [a b] Hin%list_elem_of_lookup_2.
    apply spec_segments_ends in Hin as [Ha Hb]. simpl in Ha, Hb.
    rewrite sorted_set_elem in Ha, Hb.
    unfold piece. by rewrite !escape_plain by auto. }
  split; [done|]. rewrite Heq.
  destruct (spec_segments_cover (sorted_set s) (sorted_set_ascending s))
    as [Hwf Hmem].
  exists (spec_segments (sorted_set s) ≫= spec_run_items). split.
  - rewrite (lex_head_not_caret _ _ (collapse_lex s)).
    + by apply items_runs.
    + intros rest. apply spec_tokens_head, special_chars. auto.
  - intros c. by rewrite class_matches_runs, <-Hmem, sorted_set_elem.
Qed.

Lemma collapse_plain_set_witness :
  _collapse_string_to_ranges (py "hello") false
  = _collapse_string_to_ranges (py "hello") true
  ∧ ∃ cls, char_class (_collapse_string_to_ranges (py "hello") false) = Some cls
           ∧ ∀ c, class_matches cls c = true ↔ c ∈ py "hello".
Proof.
  apply (collapse_plain_set (py "hello")).
  intros c. change (py "hello") with [104; 101; 108; 108; 111].
  change (py "\^-[]") with [92; 94; 45; 91; 93].
  rewrite !elem_of_cons, !elem_of_nil. intros Hc Hs.
  destruct Hc as [->|[->|[->|[->|[->|[]]]]]]; naive_solver.
Defined.

Lemma lex_escape_char c s :
  lex (spec_escape_char c ++ s) = cons (spec_escape_token c) <$> lex s.
Proof.
  unfold spec_escape_char, spec_escape_token.
  destruct (special_chars c) as [_ Hfive].
  repeat case_decide; subst; try done.
  simpl. rewrite decide_False; [done|].
  intros ->. match goal with H : ¬ _ |- _ => apply H, Hfive; by left end.
Qed.

Lemma atom_escape_token c : atom (spec_escape_token c) = Some c.
Proof.
  unfold spec_escape_token, atom. destruct (special_chars c) as [_ Hfive].
  case_decide as Hc.
  - apply Hfive in Hc. by destruct Hc as [->|[->|[->|[->| ->]]]].
  - repeat case_decide; subst; try done.
    exfalso. apply Hc, Hfive. naive_solver.
Qed.

Lemma escape_token_not_raw_special c d :
  d ∈ py "\^-[]" → spec_escape_token c ≠ Raw d.
Proof.
  unfold spec_escape_token. intros Hd. repeat case_decide; try done. congruence.
Qed.

Lemma items_escape_tokens s :
  items (spec_escape_token <$> s) = Some (Single <$> s).
Proof.
  assert (Hdash : 45 ∈ py "\^-[]") by (apply special_chars; auto).
  induction s as [|c s IH]; [done|].
  rewrite !fmap_cons, items_cons_single, atom_escape_token.
  - simpl. by rewrite IH.
  - intros rest. destruct s as [|c' s]; [done|]. rewrite fmap_cons.
    intros [= Heq _]. by apply (escape_token_not_raw_special c' 45).
Qed.

(** X14.  What [_escape_regex_range_chars] writes is read back as the
    characters it was given: used as the body of a character class, the
    escaped string denotes its input, one single character after the other,
    whatever the input holds (backslashes, brackets, carets, hyphens,
    newlines and tabs included). *)
Theorem escape_regex_range_chars_round_trip s :
  char_class (_escape_regex_range_chars s) = Some (Single <$> s).
Proof.
  assert (Hlex : lex (_escape_regex_range_chars s)
                 = Some (spec_escape_token <$> s)).
  { rewrite escape_regex_range_chars_spec.
    induction s as [|c s IH]; [done|].
    by rewrite bind_cons, lex_escape_char, IH. }
  rewrite (lex_head_not_caret _ _ Hlex); [apply items_escape_tokens|].
  intros rest. destruct s as [|c s]; [done|]. rewrite fmap_cons.
  intros [= Heq _]. apply (escape_token_not_raw_special c 94); [|done].
  apply special_chars. auto.
Qed.

Lemma block_elem a n c : c ∈ block a n ↔ a ≤ c < a + N.of_nat n.
Proof.
  revert a. induction n as [|n IH]; intros a; simpl.
  - rewrite elem_of_nil. lia.
  - rewrite elem_of_cons, IH. lia.
Qed.

Lemma block_ascending a n : StronglySorted N.lt (block a n).
Proof.
  revert a. induction n as [|n IH]; intros a; simpl; constructor; [done|].
  apply Forall_forall. intros c Hc%block_elem. lia.
Qed.

Lemma block_length a n : length (block a n) = n.
Proof. revert a. induction n as [|n IH]; intros a; simpl; by rewrite ?IH. Qed.

Lemma spec_runs_block a n :
  spec_runs (block a (S n)) = [(a, a + N.of_nat n)].
Proof.
  revert a. induction n as [|n IH]; intros a.
  - simpl. by rewrite N.add_0_r.
  - change (block a (S (S n))) with (a :: block (a + 1) (S n)).
    rewrite spec_runs_cons, IH, decide_True by done.
    do 2 f_equal. lia.
Qed.

(** X15.  A set of four or more consecutive code points, from [a] to
    [a + n - 1], is written as its two ends with a hyphen between them. *)
Theorem collapse_consecutive_block s a n (re_escape : bool) :
  (4 ≤ n)%nat →
  (∀ c, c ∈ s ↔ a ≤ c < a + N.of_nat n) →
  let esc := if re_escape then escape_re_range_char
             else no_escape_re_range_char in
  _collapse_string_to_ranges s re_escape
  = esc a ++ py "-" ++ esc (a + N.of_nat n - 1).
Proof.
  intros Hn Hmem esc. rewrite collapse_by_segments.
  rewrite (sorted_set_unique s (block a n)); [|apply block_ascending|].
  2: { intros c. by rewrite block_elem, Hmem. }
  unfold spec_segments. rewrite block_length, decide_True by lia.
  destruct n as [|n]; [lia|]. rewrite spec_runs_block. simpl.
  rewrite decide_False by lia. rewrite decide_False by lia.
  rewrite app_nil_r. subst esc. do 3 f_equal. lia.
Qed.

Lemma collapse_consecutive_block_witness :
  _collapse_string_to_ranges (py "[]\^_") true = py "\[-_".
Proof.
  apply (collapse_consecutive_block (py "[]\^_") 91 5 true); [lia|].
  intros c. change (py "[]\^_") with [91; 93; 92; 94; 95].
  rewrite !elem_of_cons, !elem_of_nil. lia.
Defined.
End collapse_more.

(** ** col, lineno and line *)

Section position_facts.
Implicit Types (s strg l pre cur post : list N) (c x : N) (loc : Z).

Lemma find_char_not_in c l : c ∉ l → find_char c l = None.
Proof.
  induction l as [|x l IH]; [done|]. rewrite not_elem_of_cons. intros [Hne Hl].
  simpl. rewrite decide_False by done. by rewrite IH.
Qed.

Lemma find_char_app_not_in c l1 l2 :
  c ∉ l1 →
  find_char c (l1 ++ l2) = (λ i, length l1 + i)%nat <$> find_char c l2.
Proof.
  induction l1 as [|x l1 IH]; simpl.
  - intros _. by destruct (find_char c l2).
  - rewrite not_elem_of_cons. intros [Hne Hl]. rewrite decide_False by done.
    rewrite IH by done. by destruct (find_char c l2).
Qed.

Lemma rfind_char_not_in c l : c ∉ l → rfind_char c l = None.
Proof.
  induction l as [|x l IH]; [done|]. rewrite not_elem_of_cons. intros [Hne Hl].
  simpl. rewrite IH by done. by rewrite decide_False.
Qed.

Lemma rfind_char_app_not_in c l1 l2 :
  c ∉ l2 → rfind_char c (l1 ++ l2) = rfind_char c l1.
Proof.
  intros Hl2. induction l1 as [|x l1 IH]; simpl.
  - by apply rfind_char_not_in.
  - by rewrite IH.
Qed.

Lemma rfind_char_snoc c l : rfind_char c (l ++ [c]) = Some (length l).
Proof.
  induction l as [|x l IH]; simpl.
  - by rewrite decide_True.
  - by rewrite IH.
Qed.

Lemma rfind_char_lt c l i : rfind_char c l = Some i → (i < length l)%nat.
Proof.
  revert i. induction l as [|x l IH]; intros i; [done|]. simpl.
  destruct (rfind_char c l) as [j|].
  - intros [= <-]. specialize (IH j eq_refl). lia.
  - case_decide; [|done]. intros [= <-]. lia.
Qed.

Lemma adjust_indices_in_range start end_ len :
  (0 ≤ start)%Z → (0 ≤ end_ ≤ len)%Z →
  adjust_indices start end_ len = (start, end_).
Proof.
  intros Hs He. unfold adjust_indices.
  repeat case_decide; try lia; f_equal; lia.
Qed.

Lemma in_take c n l : c ∈ take n l → c ∈ l.
Proof. apply subseteq_take. Qed.

Lemma in_drop c n l : c ∈ drop n l → c ∈ l.
Proof. apply subseteq_drop. Qed.

Lemma filter_not_in c l : c ∉ l → filter (λ x, x = c) l = [].
Proof.
  induction l as [|x l IH]; [done|]. rewrite not_elem_of_cons. intros [Hne Hl].
  rewrite filter_cons_False by done. by apply IH.
Qed.

Lemma between_prefix s n : between s 0 n = take (Z.to_nat n) s.
Proof. unfold between. by rewrite Z.sub_0_r. Qed.

Lemma line_at_length strg loc pre cur post :
  line_at strg loc pre cur post →
  length strg = (length pre + length cur + length post)%nat.
Proof. intros (-> & _). rewrite !length_app. lia. Qed.

(** The newline before [loc] is the one that ends [pre]. *)
Lemma line_at_rfind strg loc pre cur post :
  line_at strg loc pre cur post →
  str_rfind newline strg 0 loc = (Z.of_nat (length pre) - 1)%Z.
Proof.
  intros Hat. assert (Hlen := line_at_length _ _ _ _ _ Hat).
  destruct Hat as (-> & Hpre & Hcur & Hpost & Hloc).
  unfold str_rfind. rewrite adjust_indices_in_range by lia. rewrite Z.sub_0_r.
  case_decide.
  { destruct pre; [simpl; lia | simpl in Hloc; lia]. }
  rewrite between_prefix.
  replace (Z.to_nat loc) with (length pre + (Z.to_nat loc - length pre))%nat by lia.
  rewrite take_app_add, take_app_le by lia.
  rewrite rfind_char_app_not_in.
  2: { intros Hin. apply Hcur. by eapply in_take. }
  destruct Hpre as [->|[p ->]]; [done|].
  rewrite rfind_char_snoc, length_app. simpl. lia.
Qed.

(** The newline from [loc] on is the one that starts [post], if any. *)
Lemma line_at_find strg loc pre cur post :
  line_at strg loc pre cur post →
  str_find newline strg loc
  = if decide (post = []) then (-1)%Z
    else Z.of_nat (length pre + length cur).
Proof.
  intros Hat. assert (Hlen := line_at_length _ _ _ _ _ Hat).
  destruct Hat as (-> & Hpre & Hcur & Hpost & Hloc).
  unfold str_find. rewrite adjust_indices_in_range by lia.
  case_decide as Hend.
  { rewrite decide_True; [done|]. destruct post; [done|]. simpl in Hlen. lia. }
  unfold between. rewrite take_ge by (rewrite length_drop; lia).
  replace (Z.to_nat loc) with (length pre + (Z.to_nat loc - length pre))%nat by lia.
  rewrite drop_app_add, drop_app_le by lia.
  rewrite find_char_app_not_in.
  2: { intros Hin. apply Hcur. by eapply in_drop. }
  rewrite length_drop.
  destruct Hpost as [->|[p ->]]; [done|].
  simpl. lia.
Qed.

Lemma line_at_count strg loc pre cur post :
  line_at strg loc pre cur post →
  str_count newline strg 0 loc
  = Z.of_nat (length (filter (λ x, x = newline) pre)).
Proof.
  intros Hat. assert (Hlen := line_at_length _ _ _ _ _ Hat).
  destruct Hat as (-> & Hpre & Hcur & Hpost & Hloc).
  unfold str_count. rewrite adjust_indices_in_range by lia. rewrite Z.sub_0_r.
  case_decide.
  { destruct pre; [done | simpl in Hloc; lia]. }
  rewrite between_prefix.
  replace (Z.to_nat loc) with (length pre + (Z.to_nat loc - length pre))%nat by lia.
  rewrite take_app_add, take_app_le by lia.
  rewrite filter_app, length_app.
  rewrite (filter_not_in newline (take _ cur));
    [cbn [length]; by rewrite Nat.add_0_r|].
  intros Hin. apply Hcur. by eapply in_take.
Qed.
End position_facts.

Section position_claims.
Implicit Types (s strg l pre cur post : list N) (c x : N) (loc : Z).

Lemma line_at_line strg loc pre cur post :
  line_at strg loc pre cur post → line loc strg = cur.
Proof.
  intros Hat. unfold line.
  rewrite (line_at_rfind _ _ _ _ _ Hat), (line_at_find _ _ _ _ _ Hat).
  assert (Hlen := line_at_length _ _ _ _ _ Hat).
  destruct Hat as (-> & Hpre & Hcur & Hpost & Hloc).
  replace (Z.of_nat (length pre) - 1 + 1)%Z with (Z.of_nat (length pre)) by lia.
  destruct (decide (post = [])) as [->|Hne].
  - rewrite decide_False by lia. unfold slice_from, slice_index, between.
    rewrite decide_False by lia. rewrite Z.min_l by lia.
    rewrite Nat2Z.id, drop_app_length, app_nil_r. apply take_ge.
    rewrite !length_app in Hlen |- *. simpl in Hlen. lia.
  - rewrite decide_True by lia. unfold slice, slice_index, between.
    rewrite !decide_False by lia. rewrite !Z.min_l by lia.
    rewrite Nat2Z.id, drop_app_length.
    replace (Z.to_nat _) with (length cur) by lia.
    apply take_app_length.
Qed.

(** X16.  When [loc] falls in the line [cur] of [strg], [line] returns
    [cur], without the newline that ends it. *)
Theorem line_is_the_line_at_loc strg loc pre cur post :
  line_at strg loc pre cur post → line loc strg = cur.
Proof. apply line_at_line. Qed.

Lemma line_is_the_line_at_loc_witness :
  line 4 (py "ab" ++ [10] ++ py "cd" ++ [10] ++ py "ef") = py "cd".
Proof.
  apply (line_is_the_line_at_loc _ 4 (py "ab" ++ [10]) (py "cd")
           ([10] ++ py "ef")).
  split_and!.
  - reflexivity.
  - right. by exists (py "ab").
  - change (py "cd") with [99; 100]. unfold newline.
    rewrite !elem_of_cons, elem_of_nil. lia.
  - right. by exists (py "ef").
  - simpl. lia.
  - simpl. lia.
Defined.

(** X17.  When [loc] falls in the line [cur] of [strg], [col] is one more
    than the number of characters between the start of [cur] and [loc]: the
    first column is 1, also right after a newline and at the end of the
    string. *)
Theorem col_is_the_offset_in_the_line strg loc pre cur post :
  line_at strg loc pre cur post →
  col loc strg = (loc - Z.of_nat (length pre) + 1)%Z.
Proof.
  intros Hat. unfold col. rewrite (line_at_rfind _ _ _ _ _ Hat).
  case_decide as Hnl; [|lia].
  destruct Hat as (-> & Hpre & Hcur & Hpost & Hloc).
  destruct Hnl as [Hrange Hnl].
  destruct (decide (loc = Z.of_nat (length pre))) as [->|Hk]; [lia|].
  exfalso. apply Hcur.
  rewrite lookup_app_r in Hnl by lia.
  apply lookup_app_Some in Hnl as [Hnl|[Hge _]].
  - by eapply list_elem_of_lookup_2.
  - lia.
Qed.

Lemma col_is_the_offset_in_the_line_witness :
  col 4 (py "ab" ++ [10] ++ py "cd" ++ [10] ++ py "ef") = 2%Z
  ∧ col 3 (py "ab" ++ [10] ++ py "cd" ++ [10] ++ py "ef") = 1%Z
  ∧ col 5 (py "ab" ++ [10] ++ py "cd" ++ [10] ++ py "ef") = 3%Z.
Proof.
  assert (Hat : ∀ loc, (3 ≤ loc ≤ 5)%Z →
            line_at (py "ab" ++ [10] ++ py "cd" ++ [10] ++ py "ef") loc
              (py "ab" ++ [10]) (py "cd") ([10] ++ py "ef")).
  { intros loc Hloc. split_and!.
    - reflexivity.
    - right. by exists (py "ab").
    - change (py "cd") with [99; 100]. unfold newline.
      rewrite !elem_of_cons, elem_of_nil. lia.
    - right. by exists (py "ef").
    - simpl. lia.
    - simpl. lia. }
  split_and!.
  - apply (col_is_the_offset_in_the_line _ 4 _ _ _ (Hat 4%Z ltac:(lia))).
  - apply (col_is_the_offset_in_the_line _ 3 _ _ _ (Hat 3%Z ltac:(lia))).
  - apply (col_is_the_offset_in_the_line _ 5 _ _ _ (Hat 5%Z ltac:(lia))).
Defined.

(** X18.  When [loc] falls in the line [cur] of [strg], [lineno] is one more
    than the number of newlines before [cur]: the first line is 1. *)
Theorem lineno_counts_the_lines_before strg loc pre cur post :
  line_at strg loc pre cur post →
  lineno loc strg
  = (Z.of_nat (length (filter (λ x, x = newline) pre)) + 1)%Z.
Proof. intros Hat. unfold lineno. by rewrite (line_at_count _ _ _ _ _ Hat). Qed.

Lemma lineno_counts_the_lines_before_witness :
  lineno 7 (py "ab" ++ [10] ++ py "cd" ++ [10] ++ py "ef") = 3%Z.
Proof.
  apply (lineno_counts_the_lines_before _ 7
           (py "ab" ++ [10] ++ py "cd" ++ [10]) (py "ef") []).
  split_and!.
  - reflexivity.
  - right. by exists (py "ab" ++ [10] ++ py "cd").
  - change (py "ef") with [101; 102]. unfold newline.
    rewrite !elem_of_cons, elem_of_nil. lia.
  - by left.
  - simpl. lia.
  - simpl. lia.
Defined.
End position_claims.

Section position_anywhere.
Implicit Types (s strg l pre cur post : list N) (c x : N) (loc : Z).

Lemma split_at_newline s :
  ∃ cur post, s = cur ++ post ∧ (newline ∉ cur)
              ∧ (post = [] ∨ ∃ p, post = newline :: p).
Proof.
  induction s as [|x s (cur & post & -> & Hcur & Hpost)].
  - exists [], []. split_and!; [done | apply not_elem_of_nil | by left].
  - destruct (decide (x = newline)) as [->|Hx].
    + exists [], (newline :: cur ++ post).
      split_and!; [done | apply not_elem_of_nil | right; eauto].
    + exists (x :: cur), post.
      split_and!; [done | | done]. rewrite not_elem_of_cons. auto.
Qed.

(** Every position from 0 to the length falls in a line. *)
Lemma line_at_exists strg (n : nat) :
  (n ≤ length strg)%nat →
  ∃ pre cur post, line_at strg (Z.of_nat n) pre cur post.
Proof.
  revert n. induction strg as [|x s IH]; intros n Hn.
  { exists [], [], []. simpl in Hn.
    split_and!; [done | by left | apply not_elem_of_nil | by left
                | simpl; lia | simpl; lia]. }
  destruct n as [|n].
  { destruct (split_at_newline (x :: s)) as (cur & post & Heq & Hcur & Hpost).
    exists [], cur, post.
    split_and!; [done | by left | done | done | simpl; lia | simpl; lia]. }
  destruct (IH n ltac:(simpl in Hn; lia))
    as (pre & cur & post & -> & Hpre & Hcur & Hpost & Hlo & Hhi).
  destruct (decide (x = newline)) as [->|Hx].
  - exists (newline :: pre), cur, post.
    split_and!; [done | | done | done | simpl; lia | simpl; lia].
    right. destruct Hpre as [->|[p ->]]; [by exists [] | by exists (newline :: p)].
  - destruct Hpre as [->|[p ->]].
    + exists [], (x :: cur), post.
      split_and!; [done | by left | | done | simpl; lia | simpl in *; lia].
      rewrite not_elem_of_cons. auto.
    + exists (x :: p ++ [newline]), cur, post.
      split_and!; [done | | done | done | simpl; lia | simpl in *; lia].
      right. by exists (x :: p).
Qed.

Lemma slice_index_range i len :
  (0 ≤ len)%Z → (0 ≤ slice_index i len ≤ len)%Z.
Proof. intros Hlen. unfold slice_index. case_decide; lia. Qed.

Lemma adjust_indices_end e len :
  (0 ≤ len)%Z → adjust_indices 0 e len = (0%Z, slice_index e len).
Proof.
  intros Hlen. unfold adjust_indices, slice_index.
  repeat case_decide; f_equal; lia.
Qed.

Lemma str_rfind_clamp c s e :
  str_rfind c s 0 e = str_rfind c s 0 (slice_index e (Z.of_nat (length s))).
Proof.
  unfold str_rfind. rewrite adjust_indices_end by lia.
  pose proof (slice_index_range e (Z.of_nat (length s)) ltac:(lia)).
  by rewrite adjust_indices_in_range by lia.
Qed.

Lemma str_count_clamp c s e :
  str_count c s 0 e = str_count c s 0 (slice_index e (Z.of_nat (length s))).
Proof.
  unfold str_count. rewrite adjust_indices_end by lia.
  pose proof (slice_index_range e (Z.of_nat (length s)) ltac:(lia)).
  by rewrite adjust_indices_in_range by lia.
Qed.

Lemma str_find_clamp c s start :
  str_find c s start = str_find c s (slice_index start (Z.of_nat (length s))).
Proof.
  unfold str_find.
  pose proof (slice_index_range start (Z.of_nat (length s)) ltac:(lia)) as Hr.
  rewrite (adjust_indices_in_range (slice_index _ _)) by lia.
  unfold adjust_indices, slice_index in *.
  repeat case_decide; try lia; try done;
    replace (Z.min start (Z.of_nat (length s))) with start by lia; done.
Qed.

Lemma line_clamp loc strg :
  line loc strg = line (slice_index loc (Z.of_nat (length strg))) strg.
Proof.
  unfold line. by rewrite <-str_rfind_clamp, <-str_find_clamp.
Qed.

Lemma str_rfind_bounds c s e :
  (-1 ≤ str_rfind c s 0 e < slice_index e (Z.of_nat (length s)))%Z.
Proof.
  unfold str_rfind. rewrite adjust_indices_end by lia.
  pose proof (slice_index_range e (Z.of_nat (length s)) ltac:(lia)).
  case_decide; [lia|]. rewrite between_prefix.
  destruct (rfind_char c _) as [i|] eqn:Hi; [|lia].
  apply rfind_char_lt in Hi. rewrite length_take in Hi. lia.
Qed.

(** X19.  Whatever [loc] is (negative, or beyond the end), the text [line]
    returns holds no newline, and it is the line at the position [loc]
    stands for as a slice bound. *)
Theorem line_never_holds_a_newline loc strg :
  (newline ∉ line loc strg)
  ∧ line loc strg = line (slice_index loc (Z.of_nat (length strg))) strg.
Proof.
  split; [|apply line_clamp]. rewrite line_clamp.
  pose proof (slice_index_range loc (Z.of_nat (length strg)) ltac:(lia)) as Hr.
  destruct (line_at_exists strg (Z.to_nat (slice_index loc (Z.of_nat (length strg))))
              ltac:(lia)) as (pre & cur & post & Hat).
  rewrite Z2Nat.id in Hat by lia.
  rewrite (line_at_line _ _ _ _ _ Hat). apply Hat.
Qed.

(** X20.  Columns are counted from 1 for every [loc] of zero or more, also
    beyond the end of the string; for a negative [loc], [col] is zero or
    less. *)
Theorem col_is_positive_iff_loc_is_not_negative loc strg :
  (1 ≤ col loc strg ↔ 0 ≤ loc)%Z.
Proof.
  unfold col. case_decide as Hnl; [lia|].
  pose proof (str_rfind_bounds newline strg loc) as Hr.
  unfold slice_index in Hr. case_decide; lia.
Qed.

(** X21.  Beyond the end of the string [lineno] and [line] stay on the last
    line, while [col] keeps counting. *)
Theorem positions_beyond_the_end loc strg :
  (Z.of_nat (length strg) ≤ loc)%Z →
  lineno loc strg = lineno (Z.of_nat (length strg)) strg
  ∧ line loc strg = line (Z.of_nat (length strg)) strg
  ∧ col loc strg
    = (col (Z.of_nat (length strg)) strg + (loc - Z.of_nat (length strg)))%Z.
Proof.
  intros Hloc.
  assert (Hc : slice_index loc (Z.of_nat (length strg)) = Z.of_nat (length strg)).
  { unfold slice_index. case_decide; lia. }
  split_and!.
  - unfold lineno. by rewrite str_count_clamp, Hc.
  - by rewrite line_clamp, Hc.
  - unfold col. rewrite !decide_False by lia.
    rewrite (str_rfind_clamp _ _ loc), Hc. lia.
Qed.

Lemma positions_beyond_the_end_witness :
  lineno 9 (py "ab" ++ [10] ++ py "cd") = 2%Z
  ∧ line 9 (py "ab" ++ [10] ++ py "cd") = py "cd"
  ∧ col 9 (py "ab" ++ [10] ++ py "cd") = 7%Z.
Proof.
  apply (positions_beyond_the_end 9 (py "ab" ++ [10] ++ py "cd")).
  simpl. lia.
Defined.
End position_anywhere.

(** ** _flatten *)

Section flatten_facts.
Context {A : Type}.
Implicit Types (i : pyobj A) (ll l : list (pyobj A)).

(** The recursion of the source: an empty list gives an empty list, a list
    item is replaced by its flattening, any other item is kept. *)
Lemma flatten_nil : _flatten (A:=A) [] = [].
Proof. reflexivity. Qed.

Lemma flatten_cons i ll :
  _flatten (i :: ll) =
  match i with
  | PyList l => _flatten l ++ _flatten ll
  | Other _ => i :: _flatten ll
  end.
Proof. by destruct i. Qed.

Lemma flatten_app l1 l2 : _flatten (l1 ++ l2) = _flatten l1 ++ _flatten l2.
Proof.
  induction l1 as [|i l1 IH]; [done|].
  rewrite <-app_comm_cons, !flatten_cons, IH. destruct i; [done|].
  by rewrite app_assoc.
Qed.

Lemma pyobj_nested_ind (P : pyobj A → Prop) :
  (∀ a, P (Other a)) → (∀ l, Forall P l → P (PyList l)) → ∀ i, P i.
Proof.
  intros HO HL. fix IH 1. intros [a|l]; [apply HO|].
  apply HL. induction l as [|i l IHl]; constructor; [apply IH | apply IHl].
Qed.

Lemma flatten_item_no_list_left i : Forall (λ i, ¬ is_list i) (flatten_item i).
Proof.
  induction i as [a|l IH] using pyobj_nested_ind.
  - constructor; [by intros []|constructor].
  - change (flatten_item (PyList l)) with (_flatten l).
    induction IH as [|i l Hi _ IHl]; [constructor|].
    rewrite flatten_cons. destruct i as [a|l'].
    + constructor; [by intros []|done].
    + apply Forall_app. split; [apply Hi | done].
Qed.

Lemma flatten_no_list_left ll : Forall (λ i, ¬ is_list i) (_flatten ll).
Proof. apply (flatten_item_no_list_left (PyList ll)). Qed.

Lemma flatten_flat ll : Forall (λ i, ¬ is_list i) ll → _flatten ll = ll.
Proof.
  induction 1 as [|i ll Hi _ IH]; [done|].
  rewrite flatten_cons. destruct i as [a|l]; [by rewrite IH|].
  by destruct Hi.
Qed.

(** X22.  [_flatten] leaves no list among the items it returns, returns a
    list that holds no list as it is, and so changes nothing when applied a
    second time. *)
Theorem flatten_is_flat_and_idempotent ll :
  Forall (λ i, ¬ is_list i) (_flatten ll)
  ∧ _flatten (_flatten ll) = _flatten ll.
Proof.
  split; [apply flatten_no_list_left|].
  apply flatten_flat, flatten_no_list_left.
Qed.

(** X23.  A list item contributes its own flattening in its place, in
    order: flattening [l1 + [l2] + l3] is flattening [l1], then [l2], then
    [l3]; in particular brackets around the whole input change nothing. *)
Theorem flatten_in_place l1 l2 l3 :
  _flatten (l1 ++ [PyList l2] ++ l3) = _flatten l1 ++ _flatten l2 ++ _flatten l3
  ∧ _flatten [PyList l2] = _flatten l2.
Proof.
  split.
  - rewrite !flatten_app. by rewrite (flatten_cons (PyList l2) []), app_nil_r.
  - by rewrite flatten_cons, app_nil_r.
Qed.
End flatten_facts.

(** ** The further properties on string keys *)

Section more_concrete.
Local Arguments OrderedDict.keys : simpl never.

Lemma fifo_never_exceeds_size_witness :
  let self :=
    _FifoCache.after (_FifoCache.Set_ "a" 1%Z)
      {| _FifoCache.size := 2; _FifoCache.cache := [] |} in
  (Z.of_nat (length (_FifoCache.cache self)) ≤ 2)%Z
  ∧ NoDup (OrderedDict.keys (_FifoCache.cache self))
  ∧ ∀ key v, (_FifoCache.set_ key v self).1 = Return ().
Proof.
  intros self. refine (fifo_never_exceeds_size 2 self _ _); [lia|].
  apply _FifoCache.reachable_call, _FifoCache.reachable_init. reflexivity.
Defined.

Lemma fifo_negative_size_set_raises_witness :
  _FifoCache.set_ "a" 1%Z
    {| _FifoCache.size := -1; _FifoCache.cache := [] |}
  = (Raise KeyError, {| _FifoCache.size := -1; _FifoCache.cache := [] |}).
Proof.
  refine (fifo_negative_size_set_raises "a" 1%Z
            {| _FifoCache.size := -1; _FifoCache.cache := [] |} _).
  simpl. lia.
Defined.

Lemma fifo_get_after_set_witness :
  (_FifoCache.get "b"
     (_FifoCache.set_ "b" 2%Z
        {| _FifoCache.size := 1; _FifoCache.cache := [("a", 1%Z)] |}).2).1
  = Return (hit 2%Z).
Proof.
  refine (fifo_get_after_set "b" 2%Z
            {| _FifoCache.size := 1; _FifoCache.cache := [("a", 1%Z)] |} _ _ _).
  - simpl. lia.
  - unfold OrderedDict.keys. simpl. apply NoDup_singleton.
  - simpl. lia.
Defined.

Lemma fifo_overwrite_keeps_order_witness :
  let self :=
    {| _FifoCache.size := 2;
       _FifoCache.cache := [("a", 1%Z); ("b", 2%Z)] |} in
  (_FifoCache.set_ "a" 5%Z self).1 = Return ()
  ∧ OrderedDict.keys (_FifoCache.cache (_FifoCache.set_ "a" 5%Z self).2)
    = OrderedDict.keys (_FifoCache.cache self)
  ∧ OrderedDict.get "a" (_FifoCache.cache (_FifoCache.set_ "a" 5%Z self).2)
    = Some 5%Z.
Proof.
  intros self. refine (fifo_overwrite_keeps_order "a" 5%Z self _ _).
  - unfold OrderedDict.keys. simpl. set_solver.
  - simpl. lia.
Defined.

Lemma unbounded_get_after_set_witness :
  let self := {| _UnboundedCache.cache := (∅ : gmap string Z) |} in
  let cs := [_UnboundedCache.Set_ "b" 2%Z; _UnboundedCache.Get "a"] in
  _UnboundedCache.get "a"
    (_UnboundedCache.run cs (_UnboundedCache.set_ "a" 1%Z self).2)
  = (Return (hit 1%Z),
     _UnboundedCache.run cs (_UnboundedCache.set_ "a" 1%Z self).2).
Proof.
  intros self cs. refine (unbounded_get_after_set "a" 1%Z cs self _).
  repeat constructor. simpl. discriminate.
Defined.

Lemma lru_memory_within_capacity_witness :
  let self :=
    LRUMemo.after (LRUMemo.Delitem "a")
      (LRUMemo.after (LRUMemo.Setitem "a" 1%Z)
         {| LRUMemo._capacity := 1; LRUMemo._active := (∅ : gmap string Z);
            LRUMemo._memory := [] |}) in
  (Z.of_nat (length (LRUMemo._memory self)) ≤ 1)%Z
  ∧ ∀ key, (LRUMemo.__delitem__ key self).1 = Return ().
Proof.
  intros self. refine (lru_memory_within_capacity 1 self _ _); [lia|].
  do 2 apply LRUMemo.reachable_call. apply LRUMemo.reachable_init. reflexivity.
Defined.

Lemma lru_active_entry_survives_witness :
  let self :=
    {| LRUMemo._capacity := 0; LRUMemo._active := {[ "a" := 1%Z ]};
       LRUMemo._memory := [] |} in
  let cs := [LRUMemo.Setitem "b" 2%Z; LRUMemo.Delitem "b"; LRUMemo.Getitem "c"] in
  LRUMemo._active (LRUMemo.run cs self) !! "a" = Some 1%Z
  ∧ LRUMemo.__getitem__ "a" (LRUMemo.run cs self)
    = (Return 1%Z, LRUMemo.run cs self).
Proof.
  intros self cs. refine (lru_active_entry_survives "a" 1%Z cs self _ _).
  - reflexivity.
  - repeat constructor; simpl; discriminate.
Defined.

Lemma lru_released_entry_is_retained_witness :
  let self :=
    {| LRUMemo._capacity := 1; LRUMemo._active := {[ "a" := 1%Z ]};
       LRUMemo._memory := [] |} in
  (LRUMemo.__delitem__ "a" self).1 = Return ()
  ∧ LRUMemo._active (LRUMemo.__delitem__ "a" self).2 !! "a" = None
  ∧ (LRUMemo.__getitem__ "a" (LRUMemo.__delitem__ "a" self).2).1 = Return 1%Z.
Proof.
  intros self. refine (lru_released_entry_is_retained "a" 1%Z self _ _ _).
  - split; simpl.
    + unfold OrderedDict.keys. simpl. constructor.
    + intros key [_ Hin]. simpl in Hin. by apply elem_of_nil in Hin.
  - simpl. lia.
  - reflexivity.
Defined.

Lemma lru_nonpositive_capacity_loses_entry_witness :
  let self :=
    {| LRUMemo._capacity := 0; LRUMemo._active := {[ "a" := 1%Z ]};
       LRUMemo._memory := [] |} in
  (LRUMemo.__delitem__ "a" self).1 = Raise KeyError
  ∧ LRUMemo._memory (LRUMemo.__delitem__ "a" self).2 = []
  ∧ (LRUMemo.__getitem__ "a" (LRUMemo.__delitem__ "a" self).2).1
    = Raise KeyError.
Proof.
  intros self. refine (lru_nonpositive_capacity_loses_entry "a" 1%Z self _ _).
  - simpl. lia.
  - reflexivity.
Defined.

End more_concrete.
